(** * bufplugin-go: the plugin information spec and the test-file compiler

    A shallow embedding of

    - package [info]: [ValidateSpec] and [InfoForSpec];
    - package [generatetest]: [RequestSpec.ToRequest],
      [ProtoFileSpec.ToFileDescriptors], [compile] and its helpers, which turn
      the files linked by the protocompile compiler into a flat,
      dependency-ordered list of annotated file descriptors.

    Go values are modelled as follows.  A [string] is a [string]; a map used
    as a set ([map[string]struct{}]) is a [gset string]; the map of sets
    [map[string]map[string]struct{}] is a [gmap string (gset string)]; a slice
    whose nil-ness is observable to the caller is a [slice] (an optional list,
    [None] being the nil slice); a nilable pointer is an [option]; a returned
    pair [(value, error)] is a pair whose second component is an
    [option error], [None] being the nil error.  Libraries outside the
    repository (path/filepath, net/url, spdx, protocompile) and the packages
    descriptor, option and generate of the repository, whose code these two
    packages only call, are parameters, gathered in type classes. *)

From Stdlib Require Import Ascii String.
From stdpp Require Import gmap strings list fin_maps.

Open Scope string_scope.
Open Scope list_scope.
Set Warnings "-register-all,-clear-no-such-hyp".

(** ** Go values shared by both packages *)

(** The [error] values the code builds or passes on. *)
Inductive error : Type :=
| errors_New (text : string)
| newValidateSpecError (message : string)
| newValidateSpecErrorf (format : string) (arg : string)
| newValidateSpecErrorf_wrap (format : string) (wrapped : error)
| library_error (text : string).

(** A Go slice whose nil-ness matters: [None] is the nil slice. *)
Definition slice (A : Type) : Type := option (list A).

(** [int32(i)] for a non-negative [int] index: two's complement wrap-around. *)
Definition int32 (i : Z) : Z := ((i + 2 ^ 31) `mod` 2 ^ 32 - 2 ^ 31)%Z.

(** ** Package info *)

(** [info.Spec]. *)
Record Spec : Type := {
  URL : string;
  SPDXLicenseID : string;
  LicenseText : string;
  LicenseURL : string;
  DocShort : string;
  DocLong : string
}.

(** The part of [*url.URL] that the code reads. *)
Record url_URL : Type := { Host : string }.

(** net/url, the spdx license list, and the [License] and [Doc] interfaces
    of package info. *)
Class InfoLibraries : Type := {
  url_Parse : string → url_URL + error;
  spdx_License : Type;
  spdx_LicenseForID : string → option spdx_License;
  License : Type;
  Doc : Type
}.

(** The private struct [info] behind the [Info] interface. *)
Record info `{InfoLibraries} : Type := newInfo {
  info_url : option url_URL;
  info_license : option License;
  info_doc : option Doc
}.

(** The interface [Info]; a nil interface value is [None]. *)
Definition Info `{InfoLibraries} : Type := option info.

Definition validateSpecAbsoluteURL `{InfoLibraries} (urlString : string) : option error :=
  match url_Parse urlString with
  | inr err => Some (newValidateSpecErrorf_wrap "invalid URL: %w" err)
  | inl url =>
      if decide (Host url = "")
      then Some (newValidateSpecErrorf "invalid URL: must be absolute: %q" urlString)
      else None
  end.

(** Sequencing of checks: the first non-nil error is returned. *)
Definition orElse (check : option error) (rest : option error) : option error :=
  match check with
  | Some err => Some err
  | None => rest
  end.

Definition ValidateSpec `{InfoLibraries} (spec : Spec) : option error :=
  orElse (if decide (URL spec ≠ "") then validateSpecAbsoluteURL (URL spec) else None)
 (orElse (if decide (SPDXLicenseID spec ≠ "")
          then match spdx_LicenseForID (SPDXLicenseID spec) with
               | Some _ => None
               | None => Some (newValidateSpecErrorf "invalid SPDXLicenseID: %q"
                                 (SPDXLicenseID spec))
               end
          else None)
 (orElse (if decide (LicenseText spec ≠ "" ∧ LicenseURL spec ≠ "")
          then Some (newValidateSpecError "only one of LicenseText and LicenseURL can be set")
          else None)
 (orElse (if decide (LicenseURL spec ≠ "")
          then validateSpecAbsoluteURL (LicenseURL spec)
          else None)
 (orElse (if decide (DocShort spec = "" ∧ DocLong spec ≠ "")
          then Some (newValidateSpecError "DocShort is empty while DocLong is not empty")
          else None)
  None)))).

Definition InfoForSpec `{InfoLibraries} (spec : Spec) : Info * option error :=
  match ValidateSpec spec with
  | Some err => (None, Some err)
  | None => (None, Some (errors_New "TODO"))
  end.

(** ** Package generatetest: the data *)

(** A linked file, [protoreflect.FileDescriptor], as far as the code looks at
    it: [Path()] and [Imports()].  The import graph the compiler returns is
    finite and acyclic, so a file is a finite tree whose shared files are
    repeated. *)
Inductive protoreflect_FileDescriptor : Type :=
  mkFile { Path : string; Imports : list protoreflect_FileDescriptor }.

(** [descriptorpb.FileDescriptorProto], as far as the code looks at it. *)
Record FileDescriptorProto : Type := {
  Name : string;
  Dependency : list string
}.

(** [protoutil.ProtoFromFileDescriptor]: the proto of a linked file carries
    the file's path as its name and the paths of its imports, in order, as
    its dependency list. *)
Definition ProtoFromFileDescriptor (file : protoreflect_FileDescriptor) : FileDescriptorProto :=
  {| Name := Path file; Dependency := map Path (Imports file) |}.

(** [descriptorv1.FileDescriptor]: a proto with the three annotations. *)
Record descriptorv1_FileDescriptor : Type := {
  GetFileDescriptorProto : FileDescriptorProto;
  IsImport : bool;
  IsSyntaxUnspecified : bool;
  UnusedDependency : slice Z
}.

(** A warning, [reporter.ErrorWithPos], through the three observations the
    code makes of it: [GetPosition().Filename], [errors.Is(w,
    parser.ErrNoSyntax)], and [errors.As(w, &linker.ErrorUnusedImport)]
    together with [UnusedImport()] when it matches. *)
Record ErrorWithPos : Type := {
  Filename : string;
  Is_ErrNoSyntax : bool;
  As_ErrorUnusedImport : option string
}.

(** What one call of [compiler.Compile] leaves behind: the linked files, the
    error, and the warnings the reporter appended while it ran. *)
Record CompileResult : Type := {
  files : list protoreflect_FileDescriptor;
  err : option error;
  warningErrorsWithPos : list ErrorWithPos
}.

(** A computation that may invoke the compiler: it either returns, or calls
    [Compiler.Compile] with the resolver's import paths and the files, and
    goes on from what the compiler produced. *)
Inductive Run (A : Type) : Type :=
| Return (a : A)
| CompilerCompile (ImportPaths : list string) (fileNames : list string)
    (continue : CompileResult → Run A).
Arguments Return {A} a.
Arguments CompilerCompile {A} ImportPaths fileNames continue.

Fixpoint Run_bind {A B : Type} (m : Run A) (k : A → Run B) : Run B :=
  match m with
  | Return a => k a
  | CompilerCompile dirs names continue =>
      CompilerCompile dirs names (λ r, Run_bind (continue r) k)
  end.

(** Running a computation against a compiler. *)
Fixpoint run {A : Type} (compiler : list string → list string → CompileResult)
    (m : Run A) : A :=
  match m with
  | Return a => a
  | CompilerCompile dirs names continue => run compiler (continue (compiler dirs names))
  end.

(** The number of compiler invocations of a run. *)
Fixpoint invocations {A : Type} (compiler : list string → list string → CompileResult)
    (m : Run A) : nat :=
  match m with
  | Return _ => 0
  | CompilerCompile dirs names continue =>
      S (invocations compiler (continue (compiler dirs names)))
  end.

(** path/filepath. *)
Class Filepath : Type := {
  filepath_Clean : string → string;
  filepath_FromSlash : string → string;
  filepath_ToSlash : string → string
}.

(** Package descriptor of the repository: its [FileDescriptor] interface and
    the conversion from the annotated protos.  Nothing is assumed of the
    conversion, in particular not that it keeps the order of the protos. *)
Class Descriptor : Type := {
  descriptor_FileDescriptor : Type;
  FileDescriptorsForProtoFileDescriptors :
    list descriptorv1_FileDescriptor → slice descriptor_FileDescriptor * option error
}.

(** Packages option and generate of the repository. *)
Class Generate `{Descriptor} : Type := {
  OptionsMap : Type;
  option_Options : Type;
  option_NewOptions : OptionsMap → option_Options + error;
  generate_Request : Type;
  generate_NewRequest :
    slice descriptor_FileDescriptor → option_Options → option generate_Request * option error
}.

Record ProtoFileSpec : Type := {
  DirPaths : list string;
  FilePaths : list string
}.

Record RequestSpec `{Generate} : Type := {
  Files : option ProtoFileSpec;
  Options : OptionsMap
}.

(** ** Package generatetest: the code *)

Definition validateProtoFileSpec (protoFileSpec : ProtoFileSpec) : option error :=
  if decide (length (DirPaths protoFileSpec) = 0)
  then Some (errors_New "no DirPaths specified on ProtoFileSpec")
  else if decide (length (FilePaths protoFileSpec) = 0)
  then Some (errors_New "no FilePaths specified on ProtoFileSpec")
  else None.

Definition fromSlashPaths `{Filepath} (paths : list string) : list string :=
  map (λ path, filepath_Clean (filepath_FromSlash path)) paths.

(** A loop that calls [visit] on each file of a list in turn; [results] and
    [soFar], which the source passes by reference, are threaded through the
    calls. *)
Definition forEachFile
    (visit : protoreflect_FileDescriptor → list FileDescriptorProto → gset string →
             list FileDescriptorProto * gset string)
    : list protoreflect_FileDescriptor → list FileDescriptorProto → gset string →
      list FileDescriptorProto * gset string :=
  fix loop files results soFar :=
    match files with
    | [] => (results, soFar)
    | file :: files =>
        let '(results, soFar) := visit file results soFar in
        loop files results soFar
    end.

Fixpoint toFileDescriptorProtoSlice (file : protoreflect_FileDescriptor)
    (results : list FileDescriptorProto) (soFar : gset string) {struct file}
    : list FileDescriptorProto * gset string :=
  match file with
  | mkFile path imports =>
      if decide (path ∈ soFar) then (results, soFar)
      else
        let soFar := {[path]} ∪ soFar in
        let '(results, soFar) :=
          forEachFile toFileDescriptorProtoSlice imports results soFar in
        (results ++ [ProtoFromFileDescriptor file], soFar)
  end.

(** Returns the [File] field of the descriptor set. *)
Definition fileDescriptorSetForFileDescriptors (files : list protoreflect_FileDescriptor)
    : list FileDescriptorProto :=
  let soFar : gset string := ∅ in
  let slice : list FileDescriptorProto := [] in
  fst (forEachFile toFileDescriptorProtoSlice files slice soFar).

Definition maybeAddSyntaxUnspecified (syntaxUnspecifiedFilePaths : gset string)
    (errorWithPos : ErrorWithPos) : gset string :=
  if negb (Is_ErrNoSyntax errorWithPos) then syntaxUnspecifiedFilePaths
  else {[Filename errorWithPos]} ∪ syntaxUnspecifiedFilePaths.

Definition maybeAddUnusedDependency
    (filePathToUnusedDependencyFilePaths : gmap string (gset string))
    (errorWithPos : ErrorWithPos) : gmap string (gset string) :=
  match As_ErrorUnusedImport errorWithPos with
  | None => filePathToUnusedDependencyFilePaths
  | Some unusedImport =>
      let pos := Filename errorWithPos in
      let '(unusedDependencyFilePaths, filePathToUnusedDependencyFilePaths) :=
        match filePathToUnusedDependencyFilePaths !! pos with
        | Some unusedDependencyFilePaths =>
            (unusedDependencyFilePaths, filePathToUnusedDependencyFilePaths)
        | None => (∅, <[pos := ∅]> filePathToUnusedDependencyFilePaths)
        end in
      <[pos := {[unusedImport]} ∪ unusedDependencyFilePaths]>
        filePathToUnusedDependencyFilePaths
  end.

(** The loop [for i := 0; i < len(dependencyFilePaths); i++], started at
    index [i] on the dependencies that remain from there. *)
Fixpoint unusedDependencyIndexesLoop (unusedDependencyFilePaths : gset string)
    (i : nat) (dependencyFilePaths : list string) (unusedDependencyIndexes : list Z)
    : list Z :=
  match dependencyFilePaths with
  | [] => unusedDependencyIndexes
  | dependencyFilePath :: rest =>
      unusedDependencyIndexesLoop unusedDependencyFilePaths (S i) rest
        (if decide (dependencyFilePath ∈ unusedDependencyFilePaths)
         then unusedDependencyIndexes ++ [int32 (Z.of_nat i)]
         else unusedDependencyIndexes)
  end.

(** A nil map (the lookup of an absent key) and an empty map are the same
    to this function, which takes [len] and looks keys up: both are [∅]. *)
Definition unusedDependencyIndexesForFilePathToUnusedDependencyFilePaths
    (fileDescriptorProto : FileDescriptorProto)
    (unusedDependencyFilePaths : gset string) : slice Z :=
  let unusedDependencyIndexes : list Z := [] in
  if decide (size unusedDependencyFilePaths = 0) then Some unusedDependencyIndexes
  else
    let dependencyFilePaths := Dependency fileDescriptorProto in
    Some (unusedDependencyIndexesLoop unusedDependencyFilePaths 0 dependencyFilePaths
            unusedDependencyIndexes).

(** [compile], lines 362-365: the set of requested names. *)
Definition toSlashFilePathMap `{Filepath} (filePaths : list string) : gset string :=
  foldl (λ toSlashFilePathMap filePath, {[filepath_ToSlash filePath]} ∪ toSlashFilePathMap)
    ∅ filePaths.

(** [compile], lines 392-393: the body of the loop over the warnings, on
    the pair of maps it updates. *)
Definition classifyWarning (maps : gset string * gmap string (gset string))
    (warningErrorWithPos : ErrorWithPos) : gset string * gmap string (gset string) :=
  let '(syntaxUnspecifiedFilePaths, filePathToUnusedDependencyFilePaths) := maps in
  (maybeAddSyntaxUnspecified syntaxUnspecifiedFilePaths warningErrorWithPos,
   maybeAddUnusedDependency filePathToUnusedDependencyFilePaths warningErrorWithPos).

(** [compile], lines 389-394: both classifications of the warnings. *)
Definition classifyWarnings (warningErrorsWithPos : list ErrorWithPos)
    : gset string * gmap string (gset string) :=
  foldl classifyWarning (∅, ∅) warningErrorsWithPos.

(** [compile], lines 397-411: the annotated protos, in the order of the
    descriptor set. *)
Definition protoFileDescriptors (toSlashFilePathMap : gset string)
    (syntaxUnspecifiedFilePaths : gset string)
    (filePathToUnusedDependencyFilePaths : gmap string (gset string))
    (fileDescriptorSet : list FileDescriptorProto) : list descriptorv1_FileDescriptor :=
  map (λ fileDescriptorProto,
         let isNotImport := bool_decide (Name fileDescriptorProto ∈ toSlashFilePathMap) in
         let isSyntaxUnspecified :=
           bool_decide (Name fileDescriptorProto ∈ syntaxUnspecifiedFilePaths) in
         let unusedDependencyIndexes :=
           unusedDependencyIndexesForFilePathToUnusedDependencyFilePaths
             fileDescriptorProto
             (default ∅ (filePathToUnusedDependencyFilePaths !! Name fileDescriptorProto)) in
         {| GetFileDescriptorProto := fileDescriptorProto;
            IsImport := negb isNotImport;
            IsSyntaxUnspecified := isSyntaxUnspecified;
            UnusedDependency := unusedDependencyIndexes |})
    fileDescriptorSet.

(** The sequence [compile] assembles from what the compiler produced, before
    it is handed to package descriptor. *)
Definition assembled `{Filepath} (filePaths : list string) (r : CompileResult)
    : list descriptorv1_FileDescriptor :=
  let '(syntaxUnspecifiedFilePaths, filePathToUnusedDependencyFilePaths) :=
    classifyWarnings (warningErrorsWithPos r) in
  let fileDescriptorSet := fileDescriptorSetForFileDescriptors (files r) in
  protoFileDescriptors (toSlashFilePathMap filePaths) syntaxUnspecifiedFilePaths
    filePathToUnusedDependencyFilePaths fileDescriptorSet.

Definition compile `{Filepath} `{Descriptor} (dirPaths filePaths : list string)
    : Run (slice descriptor_FileDescriptor * option error) :=
  let dirPaths := fromSlashPaths dirPaths in
  let filePaths := fromSlashPaths filePaths in
  CompilerCompile dirPaths filePaths (λ r,
    match err r with
    | Some err => Return (None, Some err)
    | None => Return (FileDescriptorsForProtoFileDescriptors (assembled filePaths r))
    end).

Definition ToFileDescriptors `{Filepath} `{Descriptor} (p : option ProtoFileSpec)
    : Run (slice descriptor_FileDescriptor * option error) :=
  match p with
  | None => Return (None, None)
  | Some p =>
      match validateProtoFileSpec p with
      | Some err => Return (None, Some err)
      | None => compile (DirPaths p) (FilePaths p)
      end
  end.

Definition ToRequest `{Filepath} `{Generate} (r : option RequestSpec)
    : Run (option generate_Request * option error) :=
  match r with
  | None => Return (None, None)
  | Some r =>
      match Files r with
      | None => Return (None, Some (errors_New "RequestSpec.Files not set"))
      | Some _ =>
          match option_NewOptions (Options r) with
          | inr err => Return (None, Some err)
          | inl options =>
              Run_bind (ToFileDescriptors (Files r)) (λ '(fileDescriptors, err),
                match err with
                | Some err => Return (None, Some err)
                | None => Return (generate_NewRequest fileDescriptors options)
                end)
          end
      end
  end.

(** ** Notions used to state the properties *)

(** The files reachable from [files] through imports, transitively. *)
Inductive Reachable (files : list protoreflect_FileDescriptor)
    : protoreflect_FileDescriptor → Prop :=
| Reachable_requested file :
    file ∈ files → Reachable files file
| Reachable_import file import :
    Reachable files file → import ∈ Imports file → Reachable files import.

(** Within one result of the compiler a path stands for one linked file. *)
Definition path_identifies_file (files : list protoreflect_FileDescriptor) : Prop :=
  ∀ f g, Reachable files f → Reachable files g → Path f = Path g → f = g.

(** The height of a file in the import tree. *)
Fixpoint height (file : protoreflect_FileDescriptor) : nat :=
  match file with
  | mkFile _ imports => S (foldr (λ import h, height import `max` h) 0 imports)
  end.

(** A path that is marked in [soFar] while its proto is not in [results]
    yet: the traversal is inside the call for that file. *)
Definition in_progress (results : list FileDescriptorProto) (soFar : gset string)
    (path : string) : Prop :=
  path ∈ soFar ∧ path ∉ Name <$> results.

(** Every dependency a proto declares is the name of a proto at an earlier
    position. *)
Definition dependency_first (protos : list FileDescriptorProto) : Prop :=
  ∀ (i : nat) (proto : FileDescriptorProto) (D : string),
    protos !! i = Some proto → D ∈ Dependency proto →
    ∃ (j : nat) (dep : FileDescriptorProto), j < i ∧ protos !! j = Some dep ∧ Name dep = D.

(** Position [i] of a dependency list holds a path of the set. *)
Definition unused_at (unused : gset string) (dependencies : list string) (i : nat) : Prop :=
  ∃ path, dependencies !! i = Some path ∧ path ∈ unused.

#[global] Instance unused_at_dec unused dependencies i :
  Decision (unused_at unused dependencies i).
Proof.
  unfold unused_at. destruct (dependencies !! i) as [path|].
  - destruct (decide (path ∈ unused)); [left; eauto | right; intros (? & [= <-] & ?); done].
  - right. intros (? & ? & ?). done.
Defined.

(** What holds of [results] and [soFar] between any two steps of the
    traversal of files taken from [linked]: the protos are those of linked
    files, no name is there twice, dependencies come first, and every name
    is marked. *)
Definition traversal_invariant (linked : protoreflect_FileDescriptor → Prop)
    (results : list FileDescriptorProto) (soFar : gset string) : Prop :=
  (∀ proto, proto ∈ results → ∃ file, linked file ∧ proto = ProtoFromFileDescriptor file) ∧
  NoDup (Name <$> results) ∧
  dependency_first results ∧
  (∀ proto, proto ∈ results → Name proto ∈ soFar).

(** What a traversal of [files] leaves behind in [after], when it starts
    from [results] and [soFar]: the invariant, the same paths in progress,
    [results] extended at its end, and a proto for everything [files]
    reach. *)
Definition visited (linked : protoreflect_FileDescriptor → Prop)
    (files : list protoreflect_FileDescriptor)
    (results : list FileDescriptorProto) (soFar : gset string)
    (after : list FileDescriptorProto * gset string) : Prop :=
  traversal_invariant linked after.1 after.2 ∧
  (∀ path, in_progress after.1 after.2 path ↔ in_progress results soFar path) ∧
  (∃ new, after.1 = results ++ new) ∧
  (∀ g, Reachable files g → Path g ∈ Name <$> after.1).

(** The call for [file] is right whenever it starts from the invariant with
    nothing that [file] reaches in progress. *)
Definition visit_ok (linked : protoreflect_FileDescriptor → Prop)
    (file : protoreflect_FileDescriptor) : Prop :=
  linked file → ∀ results soFar,
    traversal_invariant linked results soFar →
    (∀ g, Reachable [file] g → ¬ in_progress results soFar (Path g)) →
    visited linked [file] results soFar (toFileDescriptorProtoSlice file results soFar).

(** The positions of a dependency list whose path is in a set, ascending. *)
Definition positions_in (unused : gset string) (dependencies : list string) : list nat :=
  filter (unused_at unused dependencies) (seq 0 (length dependencies)).

(** The paths the caller asked for, as [compile] compares them: cleaned, in
    the platform's form, and back with forward slashes. *)
Definition requested_names `{Filepath} (filePaths : list string) : list string :=
  map (λ path, filepath_ToSlash (filepath_Clean (filepath_FromSlash path))) filePaths.


(** What the compiler produces in a run of [compile] on the caller's
    paths. *)
Definition compiled `{Filepath} (compiler : list string → list string → CompileResult)
    (dirPaths filePaths : list string) : CompileResult :=
  compiler (fromSlashPaths dirPaths) (fromSlashPaths filePaths).

(** The sequence [compile] assembles in that run. *)
Definition descriptors_of `{Filepath} (compiler : list string → list string → CompileResult)
    (dirPaths filePaths : list string) : list descriptorv1_FileDescriptor :=
  assembled (fromSlashPaths filePaths) (compiled compiler dirPaths filePaths).

(** [isImport] is false exactly for the paths as the caller wrote them. *)
Definition isImport_by_path_as_written `{Filepath}
    (compiler : list string → list string → CompileResult)
    (dirPaths filePaths : list string) : Prop :=
  ∀ d, d ∈ descriptors_of compiler dirPaths filePaths →
    (IsImport d = false ↔ Name (GetFileDescriptorProto d) ∈ filePaths).


(** ** Deciding that a path stands for one file *)

(** Two lists agree element by element under [eqb]. *)
Definition all2 {A : Type} (eqb : A → A → bool) : list A → list A → bool :=
  fix loop l1 l2 :=
    match l1, l2 with
    | [], [] => true
    | x1 :: l1, x2 :: l2 => eqb x1 x2 && loop l1 l2
    | _, _ => false
    end.

Fixpoint file_eqb (f g : protoreflect_FileDescriptor) {struct f} : bool :=
  match f, g with
  | mkFile path1 imports1, mkFile path2 imports2 =>
      bool_decide (path1 = path2) && all2 file_eqb imports1 imports2
  end.

(** A file and everything below it, every occurrence. *)
Fixpoint nodes (file : protoreflect_FileDescriptor) : list protoreflect_FileDescriptor :=
  match file with
  | mkFile _ imports => file :: concat (map nodes imports)
  end.

Definition path_identifies_fileb (files : list protoreflect_FileDescriptor) : bool :=
  let all := concat (map nodes files) in
  forallb (λ f, forallb (λ g, implb (bool_decide (Path f = Path g)) (file_eqb f g)) all) all.

(** ** Instances for examples *)

(** The elements of a slash-separated path; [element] collects the
    characters of the current element, last first. *)
Fixpoint path_elements (path : string) (element : list ascii) : list string :=
  match path with
  | EmptyString => [string_of_list_ascii (rev element)]
  | String c rest =>
      if decide (c = "/"%char)
      then string_of_list_ascii (rev element) :: path_elements rest []
      else path_elements rest (c :: element)
  end.

(** One element of [Clean]; [out] holds the elements kept so far, last
    first. *)
Definition clean_element (rooted : bool) (out : list string) (element : string)
    : list string :=
  if decide (element = "" ∨ element = ".") then out
  else if decide (element = "..") then
    match out with
    | [] => if rooted then [] else [".."]
    | top :: below => if decide (top = "..") then ".." :: out else below
    end
  else element :: out.

(** [filepath.Clean] where the separator is the slash, by the four rules of
    its documentation: single separators, no "." element, no inner ".."
    with the element before it, no ".." at the start of a rooted path; the
    empty result is ".". *)
Definition unix_Clean (path : string) : string :=
  if decide (path = "") then "."
  else
    let rooted := bool_decide (String.prefix "/" path = true) in
    let out := rev (foldl (clean_element rooted) [] (path_elements path [])) in
    if rooted then "/" +:+ String.concat "/" out
    else if decide (out = []) then "." else String.concat "/" out.

(** path/filepath where the separator is the slash: [FromSlash] and
    [ToSlash] return their argument. *)
Definition unix_filepath : Filepath :=
  {| filepath_Clean := unix_Clean;
     filepath_FromSlash := λ path, path;
     filepath_ToSlash := λ path, path |}.

(** A conversion that keeps every annotated proto as it is, in place. *)
Definition elementwise_descriptor : Descriptor :=
  {| descriptor_FileDescriptor := descriptorv1_FileDescriptor;
     FileDescriptorsForProtoFileDescriptors := λ protoFileDescriptors,
       (Some protoFileDescriptors, None) |}.

(** A source file of the example compiler: whether it declares its syntax,
    and its imports, each with whether the file uses it. *)
Record source : Type := {
  declares_syntax : bool;
  imports_used : list (string * bool)
}.

Definition source_of (sources : list (string * source)) (name : string) : option source :=
  (λ found, snd (snd found)) <$> list_find (λ entry, fst entry = name) sources.

(** Links [name] and its imports from the table; [None] when a file is
    missing (or the imports nest deeper than [depth]). *)
Fixpoint link (depth : nat) (sources : list (string * source)) (name : string)
    : option protoreflect_FileDescriptor :=
  match depth with
  | 0 => None
  | S depth =>
      src ← source_of sources name;
      imports ← mapM (λ import, link depth sources (fst import)) (imports_used src);
      Some (mkFile name imports)
  end.

Definition warnings_of (entry : string * source) : list ErrorWithPos :=
  (if declares_syntax (snd entry) then []
   else [ {| Filename := fst entry; Is_ErrNoSyntax := true; As_ErrorUnusedImport := None |} ])
  ++ omap (λ import : string * bool,
             if snd import then None
             else Some {| Filename := fst entry; Is_ErrNoSyntax := false;
                          As_ErrorUnusedImport := Some (fst import) |})
       (imports_used (snd entry)).

(** A compiler over a table of sources: it links the files asked for, fails
    when a file or an import is not in the table, and warns about every file
    without a syntax declaration and every unused import. *)
Definition table_compiler (sources : list (string * source))
    (ImportPaths fileNames : list string) : CompileResult :=
  match mapM (link (S (length sources)) sources) fileNames with
  | Some linked =>
      {| files := linked; err := None;
         warningErrorsWithPos := concat (map warnings_of sources) |}
  | None =>
      {| files := []; err := Some (library_error "could not resolve path");
         warningErrorsWithPos := [] |}
  end.

(** The diamond: x imports y and z, which both import w; x does not use z
    and declares no syntax. *)
Definition diamond_sources : list (string * source) :=
  [ ("w.proto", {| declares_syntax := true; imports_used := [] |});
    ("y.proto", {| declares_syntax := true; imports_used := [("w.proto", true)] |});
    ("z.proto", {| declares_syntax := true; imports_used := [("w.proto", true)] |});
    ("x.proto", {| declares_syntax := false;
                   imports_used := [("y.proto", true); ("z.proto", false)] |}) ].

(** A file that imports one that is nowhere to be found. *)
Definition dangling_sources : list (string * source) :=
  [ ("x.proto", {| declares_syntax := true; imports_used := [("missing.proto", true)] |}) ].

(** ** Notions for the further properties *)

(** A URL string that parses and has a host. *)
Definition absolute_URL `{InfoLibraries} (urlString : string) : Prop :=
  ∃ url, url_Parse urlString = inl url ∧ Host url ≠ "".

(** The arguments of the compiler invocations of a run, in order. *)
Fixpoint invocation_log {A : Type} (compiler : list string → list string → CompileResult)
    (m : Run A) : list (list string * list string) :=
  match m with
  | Return _ => []
  | CompilerCompile dirs names continue =>
      (dirs, names) :: invocation_log compiler (continue (compiler dirs names))
  end.

(** What the traversal keeps of [results] and [soFar] on any import tree:
    no name is there twice and every name is marked. *)
Definition marked (results : list FileDescriptorProto) (soFar : gset string) : Prop :=
  NoDup (Name <$> results) ∧ ∀ proto, proto ∈ results → Name proto ∈ soFar.

(** What a traversal of [files] from [results] and [soFar] leaves in
    [after], on any import tree: the marks only grow, the same paths are in
    progress, the files' own paths are marked, and [results] is extended at
    its end by protos of files that [files] reach. *)
Definition extended (files : list protoreflect_FileDescriptor)
    (results : list FileDescriptorProto) (soFar : gset string)
    (after : list FileDescriptorProto * gset string) : Prop :=
  marked after.1 after.2 ∧
  soFar ⊆ after.2 ∧
  (∀ path, in_progress after.1 after.2 path ↔ in_progress results soFar path) ∧
  (∀ file, file ∈ files → Path file ∈ after.2) ∧
  ∃ new, after.1 = results ++ new ∧
         ∀ proto, proto ∈ new →
           ∃ file, Reachable files file ∧ proto = ProtoFromFileDescriptor file.

Definition visit_extends (file : protoreflect_FileDescriptor) : Prop :=
  ∀ results soFar, marked results soFar →
    extended [file] results soFar (toFileDescriptorProtoSlice file results soFar).

(** A compiler result with other warnings. *)
Definition with_warnings (r : CompileResult) (warnings : list ErrorWithPos) : CompileResult :=
  {| files := files r; err := err r; warningErrorsWithPos := warnings |}.

(** ** Further instances for examples *)

(** A URL parser for examples: it rejects a string that starts with a colon
    and finds a host only behind "https://". *)
Definition example_url_Parse (urlString : string) : url_URL + error :=
  if String.prefix ":" urlString then inr (library_error "missing protocol scheme")
  else if String.prefix "https://" urlString
  then inl {| Host := String.substring 8 (String.length urlString - 8) urlString |}
  else inl {| Host := "" |}.

Definition example_info_libraries : InfoLibraries :=
  {| url_Parse := example_url_Parse;
     spdx_License := string;
     spdx_LicenseForID := λ id,
       if decide (id = "Apache-2.0" ∨ id = "MIT") then Some id else None;
     License := string;
     Doc := string |}.

(** Options and requests for examples: options are key-value pairs, an
    empty key is refused, and a request is the descriptors with the
    options. *)
Definition example_generate : @Generate elementwise_descriptor :=
  {| OptionsMap := list (string * string);
     option_Options := list (string * string);
     option_NewOptions := λ options,
       if decide ("" ∈ options.*1) then inr (library_error "invalid option key")
       else inl options;
     generate_Request :=
       (slice (@descriptor_FileDescriptor elementwise_descriptor) * list (string * string))%type;
     generate_NewRequest := λ fileDescriptors options,
       (Some (fileDescriptors, options), None) |}.

(** The linked files of the diamond. *)
Definition diamond_w : protoreflect_FileDescriptor := mkFile "w.proto" [].
Definition diamond_y : protoreflect_FileDescriptor := mkFile "y.proto" [diamond_w].
Definition diamond_z : protoreflect_FileDescriptor := mkFile "z.proto" [diamond_w].
Definition diamond_x : protoreflect_FileDescriptor :=
  mkFile "x.proto" [diamond_y; diamond_z].

(** A spec that sets both the text and the URL of its license. *)
Definition two_license_spec : Spec :=
  {| URL := "https://buf.build"; SPDXLicenseID := "Apache-2.0";
     LicenseText := "Apache License"; LicenseURL := "https://www.apache.org/licenses";
     DocShort := ""; DocLong := "" |}.

(** A request for x.proto of the diamond with one option, and one that
    names no files but carries an option with an empty key. *)
Definition diamond_request : @RequestSpec elementwise_descriptor example_generate :=
  @Build_RequestSpec elementwise_descriptor example_generate
    (Some {| DirPaths := ["/root"]; FilePaths := ["./x.proto"] |})
    [("k", "v")].

Definition request_without_files : @RequestSpec elementwise_descriptor example_generate :=
  @Build_RequestSpec elementwise_descriptor example_generate None [("", "v")].

(** ** The order of what compile returns *)

(** A conversion that hands the annotated protos back as the descriptors,
    each as it is, arranged as [order] arranges them: package descriptor
    returns the descriptors in an order of its own, which [compile] does not
    fix. *)
Definition ranging_descriptor
    (order : list descriptorv1_FileDescriptor → list descriptorv1_FileDescriptor)
    : Descriptor :=
  {| descriptor_FileDescriptor := descriptorv1_FileDescriptor;
     FileDescriptorsForProtoFileDescriptors := λ protoFileDescriptors,
       (Some (order protoFileDescriptors), None) |}.

(** The sequence a run of [compile] returns is dependency-first. *)
Definition returned_dependency_first `{Filepath}
    (order : list descriptorv1_FileDescriptor → list descriptorv1_FileDescriptor)
    (compiler : list string → list string → CompileResult)
    (dirPaths filePaths : list string) : Prop :=
  ∀ returned,
    run compiler (@compile _ (ranging_descriptor order) dirPaths filePaths)
      = (Some returned, None) →
    dependency_first (GetFileDescriptorProto <$> returned).


(** * Package info *)

Section InfoForSpec.
Context `{InfoLibraries}.

Lemma orElse_Some check rest err :
  orElse check rest = Some err → check = Some err ∨ (check = None ∧ rest = Some err).
Proof. destruct check; simpl; [intros [= ->]; by left | intros ->; by right]. Qed.

(** A spec with both license fields set is rejected whatever the
    libraries say about its other fields being fine. *)
Lemma ValidateSpec_two_licenses spec :
  URL spec = "" → SPDXLicenseID spec = "" →
  LicenseText spec ≠ "" → LicenseURL spec ≠ "" →
  ValidateSpec spec =
    Some (newValidateSpecError "only one of LicenseText and LicenseURL can be set").
Proof.
  intros Hurl Hid Htext Hlurl. unfold ValidateSpec. rewrite Hurl, Hid. simpl.
  by rewrite decide_True.
Qed.

(** The empty spec is accepted. *)
Lemma ValidateSpec_empty :
  ValidateSpec {| URL := ""; SPDXLicenseID := ""; LicenseText := ""; LicenseURL := "";
                  DocShort := ""; DocLong := "" |} = None.
Proof. reflexivity. Qed.

(** C9: for every Spec, InfoForSpec returns a nil Info and a non-nil
    error: the error of ValidateSpec when it rejects the spec, and the
    placeholder error "TODO" when it accepts it. *)
Theorem InfoForSpec_nil_Info_and_error (spec : Spec) :
  InfoForSpec spec =
    (None, Some match ValidateSpec spec with
                | Some err => err
                | None => errors_New "TODO"
                end).
Proof. unfold InfoForSpec. by destruct (ValidateSpec spec). Qed.

End InfoForSpec.

(** * Package generatetest *)

Section Entry.
Context `{Filepath} `{Generate}.

Lemma run_compile compiler dirPaths filePaths :
  run compiler (compile dirPaths filePaths) =
    match err (compiled compiler dirPaths filePaths) with
    | Some err => (None, Some err)
    | None =>
        FileDescriptorsForProtoFileDescriptors (descriptors_of compiler dirPaths filePaths)
    end.
Proof.
  unfold compile, compiled, descriptors_of. simpl.
  by destruct (err (compiler _ _)).
Qed.

Lemma invocations_compile compiler dirPaths filePaths :
  invocations compiler (compile dirPaths filePaths) = 1.
Proof. unfold compile. simpl. by destruct (err (compiler _ _)). Qed.

Lemma validateProtoFileSpec_None p :
  validateProtoFileSpec p = None ↔ DirPaths p ≠ [] ∧ FilePaths p ≠ [].
Proof.
  unfold validateProtoFileSpec.
  destruct (DirPaths p), (FilePaths p); simpl; split; intros; try done;
    destruct_and?; done.
Qed.

(** A valid spec does reach the compiler, once. *)
Lemma ToFileDescriptors_valid compiler p :
  DirPaths p ≠ [] → FilePaths p ≠ [] →
  ToFileDescriptors (Some p) = compile (DirPaths p) (FilePaths p) ∧
  invocations compiler (ToFileDescriptors (Some p)) = 1.
Proof.
  intros Hd Hf. unfold ToFileDescriptors.
  rewrite (proj2 (validateProtoFileSpec_None p)) by done.
  split; [done | apply invocations_compile].
Qed.

(** C5: when the compiler reports an error, as it does for a requested
    file or import it cannot resolve and for a reference it cannot link,
    compile returns a nil slice and that error, whatever files and warnings
    the compiler has produced by then. *)
Theorem compile_aborts_on_compiler_error compiler dirPaths filePaths e :
  err (compiled compiler dirPaths filePaths) = Some e →
  run compiler (compile dirPaths filePaths) = (None, Some e).
Proof. intros He. by rewrite run_compile, He. Qed.

(** C6: a non-nil ProtoFileSpec with no DirPaths or no FilePaths makes
    ToFileDescriptors return a nil slice and the validation error at once:
    the computation is a plain return, so no compiler is invoked. *)
Theorem ToFileDescriptors_validates_first (p : ProtoFileSpec) :
  DirPaths p = [] ∨ FilePaths p = [] →
  ∃ text,
    (DirPaths p = [] ∧ text = "no DirPaths specified on ProtoFileSpec" ∨
     DirPaths p ≠ [] ∧ FilePaths p = [] ∧ text = "no FilePaths specified on ProtoFileSpec") ∧
    validateProtoFileSpec p = Some (errors_New text) ∧
    ToFileDescriptors (Some p) = Return (None, Some (errors_New text)) ∧
    ∀ compiler,
      invocations compiler (ToFileDescriptors (Some p)) = 0 ∧
      run compiler (ToFileDescriptors (Some p)) = (None, Some (errors_New text)).
Proof.
  intros Hempty. unfold ToFileDescriptors, validateProtoFileSpec.
  destruct (decide (length (DirPaths p) = 0)) as [Hd%nil_length_inv|Hd].
  { eexists. split; [left; split; [done | reflexivity]|]. repeat split; reflexivity. }
  assert (Hdirs : DirPaths p ≠ []) by (intros E; by rewrite E in Hd).
  destruct (decide (length (FilePaths p) = 0)) as [Hf%nil_length_inv|Hf].
  { eexists. split; [right; split; [done | split; [done | reflexivity]]|].
    repeat split; reflexivity. }
  destruct Hempty as [E|E]; rewrite E in *; done.
Qed.

(** C10: on a nil receiver ToFileDescriptors returns a nil slice and a nil
    error, and ToRequest a nil Request and a nil error; neither validates
    anything nor reaches the compiler. *)
Theorem nil_receivers_return_nil_nil :
  ToFileDescriptors None = Return (None, None) ∧
  ToRequest None = Return (None, None).
Proof. split; reflexivity. Qed.

End Entry.

(** ** The classification of the warnings *)

Section Classification.
Implicit Types (s : gset string) (u : gmap string (gset string)).
Implicit Types (w : ErrorWithPos) (ws : list ErrorWithPos).

Lemma maybeAddSyntaxUnspecified_elem s w file :
  file ∈ maybeAddSyntaxUnspecified s w ↔
  file ∈ s ∨ (Is_ErrNoSyntax w = true ∧ Filename w = file).
Proof.
  unfold maybeAddSyntaxUnspecified. destruct (Is_ErrNoSyntax w); simpl; set_solver.
Qed.

Lemma maybeAddUnusedDependency_Some u w unusedImport :
  As_ErrorUnusedImport w = Some unusedImport →
  maybeAddUnusedDependency u w =
    <[Filename w := {[unusedImport]} ∪ default ∅ (u !! Filename w)]> u.
Proof.
  intros Has. unfold maybeAddUnusedDependency. rewrite Has.
  destruct (u !! Filename w); simpl; [done|]. by rewrite insert_insert_eq.
Qed.

Lemma maybeAddUnusedDependency_None u w :
  As_ErrorUnusedImport w = None → maybeAddUnusedDependency u w = u.
Proof. intros Has. unfold maybeAddUnusedDependency. by rewrite Has. Qed.

Lemma maybeAddUnusedDependency_elem u w file unusedImport :
  unusedImport ∈ default ∅ (maybeAddUnusedDependency u w !! file) ↔
  unusedImport ∈ default ∅ (u !! file) ∨
  (Filename w = file ∧ As_ErrorUnusedImport w = Some unusedImport).
Proof.
  destruct (As_ErrorUnusedImport w) as [imp|] eqn:Has.
  - rewrite (maybeAddUnusedDependency_Some _ _ _ Has).
    destruct (decide (Filename w = file)) as [->|Hne].
    + rewrite lookup_insert_eq. simpl. set_solver.
    + rewrite lookup_insert_ne by done. naive_solver.
  - rewrite maybeAddUnusedDependency_None by done. naive_solver.
Qed.

Lemma maybeAddUnusedDependency_is_Some u w file :
  is_Some (maybeAddUnusedDependency u w !! file) ↔
  is_Some (u !! file) ∨ (Filename w = file ∧ is_Some (As_ErrorUnusedImport w)).
Proof.
  destruct (As_ErrorUnusedImport w) as [imp|] eqn:Has.
  - rewrite (maybeAddUnusedDependency_Some _ _ _ Has).
    destruct (decide (Filename w = file)) as [->|Hne].
    + rewrite lookup_insert_eq. split; [right|]; eauto.
    + rewrite lookup_insert_ne by done. naive_solver.
  - rewrite maybeAddUnusedDependency_None by done.
    split; [by left | intros [?|[_ [? [=]]]]; done].
Qed.

(** The two updates of the loop body commute with those of any other
    warning. *)
Lemma maybeAddSyntaxUnspecified_comm s w1 w2 :
  maybeAddSyntaxUnspecified (maybeAddSyntaxUnspecified s w1) w2 =
  maybeAddSyntaxUnspecified (maybeAddSyntaxUnspecified s w2) w1.
Proof.
  unfold maybeAddSyntaxUnspecified.
  destruct (Is_ErrNoSyntax w1), (Is_ErrNoSyntax w2); simpl; set_solver.
Qed.

Lemma maybeAddUnusedDependency_comm u w1 w2 :
  maybeAddUnusedDependency (maybeAddUnusedDependency u w1) w2 =
  maybeAddUnusedDependency (maybeAddUnusedDependency u w2) w1.
Proof.
  destruct (As_ErrorUnusedImport w1) as [i1|] eqn:H1;
    destruct (As_ErrorUnusedImport w2) as [i2|] eqn:H2.
  - rewrite (maybeAddUnusedDependency_Some u w1 i1 H1).
    rewrite (maybeAddUnusedDependency_Some u w2 i2 H2).
    rewrite (maybeAddUnusedDependency_Some _ w2 i2 H2).
    rewrite (maybeAddUnusedDependency_Some _ w1 i1 H1).
    destruct (decide (Filename w1 = Filename w2)) as [E|Hne].
    + rewrite E, !lookup_insert_eq, !insert_insert_eq. simpl.
      f_equal. set_solver.
    + rewrite (lookup_insert_ne _ (Filename w1) (Filename w2)) by done.
      rewrite (lookup_insert_ne _ (Filename w2) (Filename w1)) by done.
      by apply insert_insert_ne.
  - by rewrite (maybeAddUnusedDependency_None _ w2 H2),
      (maybeAddUnusedDependency_None _ w2 H2).
  - by rewrite (maybeAddUnusedDependency_None _ w1 H1),
      (maybeAddUnusedDependency_None _ w1 H1).
  - by rewrite !maybeAddUnusedDependency_None.
Qed.

Lemma classifyWarning_comm maps w1 w2 :
  classifyWarning (classifyWarning maps w1) w2 =
  classifyWarning (classifyWarning maps w2) w1.
Proof.
  destruct maps as [s u]. simpl.
  by rewrite maybeAddSyntaxUnspecified_comm, maybeAddUnusedDependency_comm.
Qed.

Lemma foldl_classifyWarning_Permutation ws1 ws2 :
  ws1 ≡ₚ ws2 → ∀ maps, foldl classifyWarning maps ws1 = foldl classifyWarning maps ws2.
Proof.
  induction 1 as [|w ws1 ws2 _ IH|w1 w2 ws|ws1 ws2 ws3 _ IH1 _ IH2]; intros maps; simpl.
  - done.
  - apply IH.
  - by rewrite classifyWarning_comm.
  - by rewrite IH1.
Qed.

Lemma classifyWarnings_Permutation ws1 ws2 :
  ws1 ≡ₚ ws2 → classifyWarnings ws1 = classifyWarnings ws2.
Proof. intros Hp. by apply foldl_classifyWarning_Permutation. Qed.

(** Seeing a warning a second time changes nothing. *)
Lemma classifyWarning_idemp maps w :
  classifyWarning (classifyWarning maps w) w = classifyWarning maps w.
Proof.
  destruct maps as [s u]. simpl. f_equal.
  - unfold maybeAddSyntaxUnspecified. destruct (Is_ErrNoSyntax w); simpl; set_solver.
  - destruct (As_ErrorUnusedImport w) as [unusedImport|] eqn:Has.
    + rewrite (maybeAddUnusedDependency_Some u w _ Has).
      rewrite (maybeAddUnusedDependency_Some _ w _ Has).
      rewrite lookup_insert_eq, insert_insert_eq. simpl. f_equal. set_solver.
    + by rewrite !maybeAddUnusedDependency_None.
Qed.

Lemma classifyWarnings_repeated ws w :
  w ∈ ws → classifyWarnings (ws ++ [w]) = classifyWarnings ws.
Proof.
  intros [rest Hperm]%elem_of_Permutation.
  rewrite (classifyWarnings_Permutation ws (w :: rest)) by done.
  rewrite (classifyWarnings_Permutation (ws ++ [w]) (w :: w :: rest)).
  - unfold classifyWarnings. cbn [foldl]. by rewrite classifyWarning_idemp.
  - rewrite Hperm. by rewrite <- Permutation_cons_append.
Qed.

(** What the loop has collected, from any pair of maps it starts with. *)
Lemma foldl_classifyWarning_spec ws : ∀ s u,
  let maps := foldl classifyWarning (s, u) ws in
  (∀ file, file ∈ maps.1 ↔
     file ∈ s ∨ ∃ w, w ∈ ws ∧ Is_ErrNoSyntax w = true ∧ Filename w = file) ∧
  (∀ file unusedImport, unusedImport ∈ default ∅ (maps.2 !! file) ↔
     unusedImport ∈ default ∅ (u !! file) ∨
     ∃ w, w ∈ ws ∧ Filename w = file ∧ As_ErrorUnusedImport w = Some unusedImport) ∧
  (∀ file, is_Some (maps.2 !! file) ↔
     is_Some (u !! file) ∨
     ∃ w, w ∈ ws ∧ Filename w = file ∧ is_Some (As_ErrorUnusedImport w)).
Proof.
  induction ws as [|w ws IH]; intros s u; simpl.
  - repeat split; try (by left); intros [?|(w & Hin & _)]; try done;
      by apply elem_of_nil in Hin.
  - destruct (IH (maybeAddSyntaxUnspecified s w) (maybeAddUnusedDependency u w))
      as (IH1 & IH2 & IH3).
    split; [|split].
    + intros file. rewrite IH1, maybeAddSyntaxUnspecified_elem.
      setoid_rewrite elem_of_cons. naive_solver.
    + intros file imp. rewrite IH2, maybeAddUnusedDependency_elem.
      setoid_rewrite elem_of_cons. naive_solver.
    + intros file. rewrite IH3, maybeAddUnusedDependency_is_Some.
      setoid_rewrite elem_of_cons. naive_solver.
Qed.

(** C7: the classification collects, for every file, the set of import
    paths of the unused-import warnings of that file (one set per file,
    present exactly when the file has such a warning) and the set of files
    with a missing-syntax warning; a warning of neither kind changes neither
    map, and neither does it change the classification of a list it is
    part of; a warning reported once more changes nothing either. *)
Theorem classification_partitions_warnings (ws : list ErrorWithPos) :
  (∀ file, file ∈ (classifyWarnings ws).1 ↔
     ∃ w, w ∈ ws ∧ Is_ErrNoSyntax w = true ∧ Filename w = file) ∧
  (∀ file unusedImport,
     unusedImport ∈ default ∅ ((classifyWarnings ws).2 !! file) ↔
     ∃ w, w ∈ ws ∧ Filename w = file ∧ As_ErrorUnusedImport w = Some unusedImport) ∧
  (∀ file, is_Some ((classifyWarnings ws).2 !! file) ↔
     ∃ w, w ∈ ws ∧ Filename w = file ∧ is_Some (As_ErrorUnusedImport w)) ∧
  (∀ w, Is_ErrNoSyntax w = false → As_ErrorUnusedImport w = None →
     (∀ s, maybeAddSyntaxUnspecified s w = s) ∧
     (∀ u, maybeAddUnusedDependency u w = u) ∧
     (∀ before after, ws = before ++ w :: after →
        classifyWarnings ws = classifyWarnings (before ++ after))) ∧
  (∀ w, w ∈ ws → classifyWarnings (ws ++ [w]) = classifyWarnings ws).
Proof.
  destruct (foldl_classifyWarning_spec ws ∅ ∅) as (H1 & H2 & H3).
  split; [|split; [|split; [|split]]]; [| | | | by apply classifyWarnings_repeated].
  - intros file. rewrite H1. set_solver.
  - intros file imp. rewrite H2, lookup_empty. simpl. set_solver.
  - intros file. rewrite H3, lookup_empty.
    split; [intros [[? [=]]|?]; done | by right].
  - intros w Hsyn Has.
    assert (Hs : ∀ s, maybeAddSyntaxUnspecified s w = s).
    { intros s. unfold maybeAddSyntaxUnspecified. by rewrite Hsyn. }
    assert (Hu : ∀ u, maybeAddUnusedDependency u w = u).
    { intros u. by apply maybeAddUnusedDependency_None. }
    split; [done | split; [done|]].
    intros before after ->. unfold classifyWarnings.
    rewrite !foldl_app. simpl.
    destruct (foldl classifyWarning (∅, ∅) before) as [s u]. simpl.
    by rewrite Hs, Hu.
Qed.

End Classification.

(** ** The indexes of the unused dependencies *)

Section UnusedDependencyIndexes.
Implicit Types (unused : gset string) (deps : list string).

Lemma filter_seq_S (P Q : nat → Prop) `{∀ k, Decision (P k)} `{∀ k, Decision (Q k)} n :
  (∀ k, P (S k) ↔ Q k) →
  ∀ j, filter P (seq (S j) n) = S <$> filter Q (seq j n).
Proof.
  intros HPQ. induction n as [|n IH]; intros j; [done|].
  cbn [seq]. rewrite !filter_cons, IH.
  destruct (decide (P (S j))) as [HP|HP], (decide (Q j)) as [HQ|HQ];
    try done; exfalso; [apply HQ | apply HP]; by apply HPQ.
Qed.

Lemma positions_in_cons unused dep deps :
  positions_in unused (dep :: deps) =
    (if decide (dep ∈ unused) then [0] else []) ++ (S <$> positions_in unused deps).
Proof.
  unfold positions_in. cbn [length seq]. rewrite filter_cons.
  rewrite (filter_seq_S _ (unused_at unused deps)) by done.
  destruct (decide (unused_at unused (dep :: deps) 0)) as [(p & [= <-] & Hin)|Hno];
    destruct (decide (dep ∈ unused)) as [Hd|Hd]; try done.
  destruct Hno. by exists dep.
Qed.

Lemma positions_in_empty deps : positions_in ∅ deps = [].
Proof.
  induction deps as [|dep deps IH]; [done|].
  rewrite positions_in_cons, IH. by rewrite decide_False by set_solver.
Qed.

Lemma positions_in_lt unused deps i :
  i ∈ positions_in unused deps → i < length deps.
Proof.
  unfold positions_in. rewrite list_elem_of_filter, elem_of_seq. lia.
Qed.

Lemma unusedDependencyIndexesLoop_positions unused deps : ∀ i indexes,
  unusedDependencyIndexesLoop unused i deps indexes =
    indexes ++ ((λ j, int32 (Z.of_nat (i + j))) <$> positions_in unused deps).
Proof.
  induction deps as [|dep deps IH]; intros i indexes.
  - simpl. by rewrite app_nil_r.
  - cbn [unusedDependencyIndexesLoop]. rewrite IH, positions_in_cons, fmap_app.
    rewrite <- list_fmap_compose.
    assert (E : (λ j, int32 (Z.of_nat (S i + j))) <$> positions_in unused deps
                = ((λ j, int32 (Z.of_nat (i + j))) ∘ S) <$> positions_in unused deps).
    { apply list_fmap_ext. intros _ j _. simpl. do 2 f_equal. lia. }
    rewrite E. destruct (decide (dep ∈ unused)); simpl.
    + rewrite <- app_assoc. simpl. by rewrite Nat.add_0_r.
    + done.
Qed.

Lemma int32_small (i : nat) : (Z.of_nat i < 2 ^ 31)%Z → int32 (Z.of_nat i) = Z.of_nat i.
Proof.
  intros Hi. unfold int32. rewrite Z.mod_small; lia.
Qed.

(** The function returns a slice that is not nil, holding the [int32] of
    every position of the dependency list whose path is in the set. *)
Lemma unusedDependencyIndexes_positions proto unused :
  unusedDependencyIndexesForFilePathToUnusedDependencyFilePaths proto unused =
    Some ((λ i, int32 (Z.of_nat i)) <$> positions_in unused (Dependency proto)).
Proof.
  unfold unusedDependencyIndexesForFilePathToUnusedDependencyFilePaths.
  destruct (decide (size unused = 0)) as [Hsize|_].
  - apply size_empty_inv in Hsize. apply leibniz_equiv in Hsize. subst unused.
    by rewrite positions_in_empty.
  - by rewrite unusedDependencyIndexesLoop_positions.
Qed.

Lemma unusedDependencyIndexes_positions_small proto unused :
  (Z.of_nat (length (Dependency proto)) ≤ 2 ^ 31)%Z →
  unusedDependencyIndexesForFilePathToUnusedDependencyFilePaths proto unused =
    Some (Z.of_nat <$> positions_in unused (Dependency proto)).
Proof.
  intros Hlen. rewrite unusedDependencyIndexes_positions. f_equal.
  apply list_fmap_ext. intros _ i Hi%list_elem_of_lookup_2%positions_in_lt.
  apply int32_small. lia.
Qed.

End UnusedDependencyIndexes.

(** ** The annotations [compile] puts on the protos *)

Section Annotations.
Context `{Filepath} `{Descriptor}.

Lemma elem_of_toSlashFilePathMap filePaths name :
  name ∈ toSlashFilePathMap filePaths ↔ name ∈ filepath_ToSlash <$> filePaths.
Proof.
  unfold toSlashFilePathMap.
  assert (Hgen : ∀ (m : gset string),
    name ∈ foldl (λ m filePath, {[filepath_ToSlash filePath]} ∪ m) m filePaths ↔
    name ∈ m ∨ name ∈ filepath_ToSlash <$> filePaths).
  { induction filePaths as [|path filePaths IH]; intros m; simpl.
    - rewrite elem_of_nil. naive_solver.
    - rewrite IH, elem_of_cons. set_solver. }
  rewrite Hgen. set_solver.
Qed.

Lemma requested_names_fromSlashPaths filePaths :
  filepath_ToSlash <$> fromSlashPaths filePaths = requested_names filePaths.
Proof.
  unfold fromSlashPaths, requested_names. by rewrite <- list_fmap_compose.
Qed.

(** An assembled descriptor is the annotation of a proto of the descriptor
    set, at the same position. *)
Lemma descriptors_of_protos compiler dirPaths filePaths :
  GetFileDescriptorProto <$> descriptors_of compiler dirPaths filePaths =
    fileDescriptorSetForFileDescriptors (files (compiled compiler dirPaths filePaths)).
Proof.
  unfold descriptors_of, assembled.
  destruct (classifyWarnings _) as [s u]. unfold protoFileDescriptors.
  rewrite <- list_fmap_compose. simpl. apply list_fmap_id.
Qed.

Lemma elem_of_descriptors_of compiler dirPaths filePaths d :
  d ∈ descriptors_of compiler dirPaths filePaths →
  let r := compiled compiler dirPaths filePaths in
  let proto := GetFileDescriptorProto d in
  IsImport d = negb (bool_decide (Name proto ∈ toSlashFilePathMap (fromSlashPaths filePaths))) ∧
  IsSyntaxUnspecified d =
    bool_decide (Name proto ∈ (classifyWarnings (warningErrorsWithPos r)).1) ∧
  UnusedDependency d =
    unusedDependencyIndexesForFilePathToUnusedDependencyFilePaths proto
      (default ∅ ((classifyWarnings (warningErrorsWithPos r)).2 !! Name proto)).
Proof.
  unfold descriptors_of, assembled.
  destruct (classifyWarnings _) as [s u]. unfold protoFileDescriptors.
  intros (proto & -> & _)%list_elem_of_fmap. simpl. done.
Qed.

(** C3, amended: in a successful compile, isImport is false exactly for the
    descriptors whose name is the normalized form (FromSlash, Clean,
    ToSlash) of a path the caller asked for. *)
Theorem isImport_false_iff_requested_name compiler dirPaths filePaths :
  err (compiled compiler dirPaths filePaths) = None →
  run compiler (compile dirPaths filePaths) =
    FileDescriptorsForProtoFileDescriptors (descriptors_of compiler dirPaths filePaths) ∧
  ∀ d, d ∈ descriptors_of compiler dirPaths filePaths →
    (IsImport d = false ↔ Name (GetFileDescriptorProto d) ∈ requested_names filePaths).
Proof.
  intros Hok. split.
  { unfold compile, compiled, descriptors_of in *. simpl. by rewrite Hok. }
  intros d (-> & _)%elem_of_descriptors_of.
  rewrite negb_false_iff, bool_decide_eq_true.
  by rewrite elem_of_toSlashFilePathMap, requested_names_fromSlashPaths.
Qed.



End Annotations.

(** ** The depth-first traversal *)

Section Reachability.
Implicit Types (file import : protoreflect_FileDescriptor).

Lemma FileDescriptor_ind' (P : protoreflect_FileDescriptor → Prop) :
  (∀ path imports, Forall P imports → P (mkFile path imports)) → ∀ file, P file.
Proof.
  intros Hstep. fix IH 1. intros [path imports]. apply Hstep.
  induction imports as [|import imports IHimports]; constructor;
    [apply IH | apply IHimports].
Qed.

Lemma height_import file import : import ∈ Imports file → height import < height file.
Proof.
  destruct file as [path imports]. simpl.
  induction imports as [|first imports IH]; intros Hin.
  - by apply elem_of_nil in Hin.
  - apply elem_of_cons in Hin as [->|Hin]; simpl; [lia|].
    specialize (IH Hin). lia.
Qed.

Lemma Reachable_mono files1 files2 file :
  (∀ f, f ∈ files1 → Reachable files2 f) → Reachable files1 file → Reachable files2 file.
Proof.
  intros Hsub. induction 1 as [file Hin|file import _ IH Himp]; [by apply Hsub|].
  by eapply Reachable_import.
Qed.

Lemma Reachable_cons file files g :
  Reachable (file :: files) g ↔ Reachable [file] g ∨ Reachable files g.
Proof.
  split.
  - induction 1 as [g Hin|g import _ IH Himp].
    + apply elem_of_cons in Hin as [->|Hin].
      * left. apply Reachable_requested. by left.
      * right. by apply Reachable_requested.
    + destruct IH as [IH|IH]; [left|right]; by eapply Reachable_import.
  - intros [Hr|Hr]; revert Hr; apply Reachable_mono; intros f Hf;
      apply Reachable_requested; set_solver.
Qed.

Lemma Reachable_nil g : ¬ Reachable [] g.
Proof. induction 1 as [g Hin|]; [by apply elem_of_nil in Hin | done]. Qed.

Lemma Reachable_singleton file g :
  Reachable [file] g ↔ g = file ∨ Reachable (Imports file) g.
Proof.
  split.
  - induction 1 as [g Hin|g import _ IH Himp].
    + left. by apply list_elem_of_singleton in Hin.
    + right. destruct IH as [->|IH].
      * by apply Reachable_requested.
      * by eapply Reachable_import.
  - intros [->|Hr].
    + apply Reachable_requested. by left.
    + revert Hr. apply Reachable_mono. intros f Hf.
      eapply Reachable_import; [|done]. apply Reachable_requested. by left.
Qed.

Lemma Reachable_imports_height file g :
  Reachable (Imports file) g → height g < height file.
Proof.
  induction 1 as [g Hin|g import _ IH Himp].
  - by apply height_import.
  - apply height_import in Himp. lia.
Qed.

End Reachability.

Section Traversal.
Implicit Types (file import : protoreflect_FileDescriptor).
Implicit Types (results : list FileDescriptorProto) (soFar : gset string).

(** The linked files of one result of the compiler: closed under imports,
    and a path stands for one file. *)
Variable linked : protoreflect_FileDescriptor → Prop.
Hypothesis linked_import : ∀ file import, linked file → import ∈ Imports file → linked import.
Hypothesis linked_path : ∀ f g, linked f → linked g → Path f = Path g → f = g.

Lemma toFileDescriptorProtoSlice_eq file results soFar :
  toFileDescriptorProtoSlice file results soFar =
    if decide (Path file ∈ soFar) then (results, soFar)
    else
      let '(results, soFar) :=
        forEachFile toFileDescriptorProtoSlice (Imports file) results
          ({[Path file]} ∪ soFar) in
      (results ++ [ProtoFromFileDescriptor file], soFar).
Proof. by destruct file. Qed.

Lemma linked_Reachable files g :
  (∀ f, f ∈ files → linked f) → Reachable files g → linked g.
Proof.
  intros Hfiles. induction 1 as [g Hin|g import _ IH Himp]; [by apply Hfiles|].
  by eapply linked_import.
Qed.

Lemma elem_of_names results name :
  name ∈ Name <$> results ↔ ∃ i proto, results !! i = Some proto ∧ Name proto = name.
Proof.
  rewrite list_elem_of_fmap. split.
  - intros (proto & -> & (i & Hi)%list_elem_of_lookup_1). eauto.
  - intros (i & proto & Hi & <-). exists proto. split; [done|].
    by eapply list_elem_of_lookup_2.
Qed.

(** Once the proto of a file is in [results], so are those of everything
    the file reaches. *)
Lemma emitted_closed results soFar file g :
  traversal_invariant linked results soFar →
  linked file → Path file ∈ Name <$> results →
  Reachable [file] g → Path g ∈ Name <$> results.
Proof.
  intros (Hfrom & _ & Hfirst & _) Hfile Hemitted.
  induction 1 as [g Hin|h g Hreach IH Himp].
  - by apply list_elem_of_singleton in Hin as ->.
  - assert (Hh : linked h).
    { eapply linked_Reachable; [|done]. by intros ? ->%list_elem_of_singleton. }
    apply elem_of_names in IH as (i & proto & Hi & Hname).
    destruct (Hfrom proto) as (h' & Hh' & ->); [by eapply list_elem_of_lookup_2|].
    assert (h' = h) as -> by (by apply linked_path).
    destruct (Hfirst i _ (Path g) Hi) as (j & dep & _ & Hj & Hdep).
    { simpl. apply list_elem_of_fmap. eauto. }
    apply elem_of_names. eauto.
Qed.

Lemma forEachFile_visited files :
  Forall (visit_ok linked) files → (∀ f, f ∈ files → linked f) →
  ∀ results soFar,
    traversal_invariant linked results soFar →
    (∀ g, Reachable files g → ¬ in_progress results soFar (Path g)) →
    visited linked files results soFar
      (forEachFile toFileDescriptorProtoSlice files results soFar).
Proof.
  induction 1 as [|file files Hfile _ IH]; intros Hlinked results soFar Hinv Hnone.
  - simpl. split; [done|]. split; [done|]. split.
    + exists []. by rewrite app_nil_r.
    + intros g Hg. by apply Reachable_nil in Hg.
  - simpl.
    destruct (Hfile (Hlinked file ltac:(by left)) results soFar Hinv)
      as (Hinv1 & Hprog1 & [new1 Hnew1] & Hall1).
    { intros g Hg. apply Hnone, Reachable_cons. by left. }
    destruct (toFileDescriptorProtoSlice file results soFar) as [results1 soFar1].
    simpl in *.
    destruct (IH (λ f Hf, Hlinked f ltac:(by right)) results1 soFar1 Hinv1)
      as (Hinv2 & Hprog2 & [new2 Hnew2] & Hall2).
    { intros g Hg. rewrite Hprog1. apply Hnone, Reachable_cons. by right. }
    destruct (forEachFile toFileDescriptorProtoSlice files results1 soFar1)
      as [results2 soFar2].
    simpl in *. split; [done|]. split; [|split].
    + intros path. by rewrite Hprog2, Hprog1.
    + exists (new1 ++ new2). by rewrite Hnew2, Hnew1, app_assoc.
    + intros g [Hg|Hg]%Reachable_cons; simpl; [|by apply Hall2].
      rewrite Hnew2, fmap_app, elem_of_app. left. by apply Hall1.
Qed.

Lemma dependency_first_snoc results proto :
  dependency_first results →
  (∀ D, D ∈ Dependency proto → D ∈ Name <$> results) →
  dependency_first (results ++ [proto]).
Proof.
  intros Hfirst Hdeps i proto' D Hi HD.
  destruct (decide (i < length results)) as [Hlt|Hge].
  - rewrite lookup_app_l in Hi by done.
    destruct (Hfirst i proto' D Hi HD) as (j & dep & Hj & Hdep & Hname).
    exists j, dep. split; [done|]. split; [|done].
    rewrite lookup_app_l; [done|]. apply lookup_lt_Some in Hdep. lia.
  - rewrite lookup_app_r in Hi by lia.
    apply list_lookup_singleton_Some in Hi as [Hi <-].
    apply Hdeps, elem_of_names in HD as (j & dep & Hj & Hname).
    exists j, dep. pose proof (lookup_lt_Some _ _ _ Hj).
    split; [lia|]. split; [|done]. by rewrite lookup_app_l.
Qed.

Lemma toFileDescriptorProtoSlice_visited file : visit_ok linked file.
Proof.
  induction file as [path imports IH] using FileDescriptor_ind'.
  intros Hfile results soFar Hinv Hnone.
  set (file := mkFile path imports) in *.
  rewrite toFileDescriptorProtoSlice_eq.
  change (Path file) with path. change (Imports file) with imports.
  destruct (decide (path ∈ soFar)) as [Hseen|Hnew].
  - (* already marked, and not in progress: its proto is there *)
    assert (Hemitted : path ∈ Name <$> results).
    { destruct (decide (path ∈ Name <$> results)) as [|Hnot]; [done|].
      destruct (Hnone file); [apply Reachable_requested; by left | by split]. }
    simpl. split; [done|]. split; [done|]. split.
    + exists []. by rewrite app_nil_r.
    + intros g Hg. by eapply emitted_closed.
  - assert (Hfresh : path ∉ Name <$> results).
    { intros (proto & -> & Hin)%list_elem_of_fmap. destruct Hinv as (_ & _ & _ & Hmarked).
      by apply Hnew, Hmarked. }
    assert (Hinv1 : traversal_invariant linked results ({[path]} ∪ soFar)).
    { destruct Hinv as (? & ? & ? & Hmarked). repeat split; try done.
      intros proto Hin. apply elem_of_union_r. by apply Hmarked. }
    destruct (forEachFile_visited imports IH) with (results := results)
      (soFar := {[path]} ∪ soFar) as (Hinv2 & Hprog2 & [new Hnew2] & Hall2); [| done | |].
    { intros f Hf. by eapply linked_import. }
    { intros g Hg [Hmark Hnot].
      apply elem_of_union in Hmark as [Hpath%elem_of_singleton|Hmark].
      - assert (g = file) as ->.
        { apply linked_path; [|done..].
          eapply linked_Reachable; [|exact Hg]. intros f Hf. by eapply linked_import. }
        apply (Reachable_imports_height file) in Hg. lia.
      - apply (Hnone g); [|by split].
        apply Reachable_singleton. by right. }
    destruct (forEachFile toFileDescriptorProtoSlice imports results ({[path]} ∪ soFar))
      as [results2 soFar2].
    simpl in *.
    assert (Hprog : in_progress results2 soFar2 path).
    { apply Hprog2. split; [set_solver | done]. }
    destruct Hinv2 as (Hfrom2 & Hnodup2 & Hfirst2 & Hmarked2).
    unfold visited, traversal_invariant. simpl.
    split; [|split; [|split]].
    + split; [|split; [|split]].
      * intros proto [Hin| ->%list_elem_of_singleton]%elem_of_app; [by apply Hfrom2|].
        by exists file.
      * rewrite fmap_app. apply NoDup_app. split; [done|]. split.
        -- intros name Hin ->%list_elem_of_singleton. by destruct Hprog.
        -- apply NoDup_singleton.
      * apply dependency_first_snoc; [done|].
        intros D (g & -> & Hg)%list_elem_of_fmap.
        apply Hall2. by apply Reachable_requested.
      * intros proto [Hin| ->%list_elem_of_singleton]%elem_of_app; [by apply Hmarked2|].
        by destruct Hprog.
    + intros q. unfold in_progress in *. rewrite fmap_app, not_elem_of_app.
      change (Name <$> [ProtoFromFileDescriptor file]) with [path].
      rewrite list_elem_of_singleton. specialize (Hprog2 q).
      destruct (decide (q = path)) as [->|Hq]; set_solver.
    + exists (new ++ [ProtoFromFileDescriptor file]). by rewrite Hnew2, app_assoc.
    + intros g [->|Hg]%Reachable_singleton; rewrite fmap_app, elem_of_app.
      * right. by left.
      * left. by apply Hall2.
Qed.

End Traversal.

Section Deciding.
Implicit Types (file f g : protoreflect_FileDescriptor).

Lemma file_eqb_eq f : ∀ g, file_eqb f g = true → f = g.
Proof.
  induction f as [path1 imports1 IH] using FileDescriptor_ind'.
  intros [path2 imports2]. simpl.
  intros [Hpath%bool_decide_eq_true Himports]%andb_true_iff. subst path2. f_equal.
  revert imports2 Himports.
  induction IH as [|f1 imports1 Hf1 _ IHimports]; intros [|f2 imports2]; simpl; try done.
  intros [Hf Hrest]%andb_true_iff. f_equal; [by apply Hf1 | by apply IHimports].
Qed.

Lemma nodes_eq file : nodes file = file :: concat (map nodes (Imports file)).
Proof. by destruct file. Qed.

Lemma elem_of_concat {A} (x : A) (ls : list (list A)) :
  x ∈ concat ls ↔ ∃ l, x ∈ l ∧ l ∈ ls.
Proof.
  rewrite list_elem_of_In, in_concat. split.
  - intros (l & Hl & Hx). exists l. by rewrite !list_elem_of_In.
  - intros (l & Hx & Hl). exists l. by rewrite <- !list_elem_of_In.
Qed.

Lemma elem_of_concat_nodes files f g :
  f ∈ files → g ∈ nodes f → g ∈ concat (map nodes files).
Proof.
  intros Hf Hg. apply elem_of_concat. exists (nodes f). split; [done|].
  apply list_elem_of_fmap. eauto.
Qed.

Lemma nodes_import file import g :
  g ∈ nodes file → import ∈ Imports g → import ∈ nodes file.
Proof.
  induction file as [path imports IH] using FileDescriptor_ind'.
  rewrite !nodes_eq. simpl. intros [->|Hg]%elem_of_cons Himport.
  - right. eapply elem_of_concat_nodes; [done|]. rewrite nodes_eq. by left.
  - right. apply elem_of_concat in Hg as (l & Hg & (f & -> & Hf)%list_elem_of_fmap).
    eapply elem_of_concat_nodes; [done|].
    rewrite Forall_forall in IH. by apply IH.
Qed.

Lemma Reachable_nodes files g : Reachable files g → g ∈ concat (map nodes files).
Proof.
  induction 1 as [g Hin|f g _ IH Himp].
  - eapply elem_of_concat_nodes; [done|]. rewrite nodes_eq. by left.
  - apply elem_of_concat in IH as (l & Hf & (root & -> & Hroot)%list_elem_of_fmap).
    eapply elem_of_concat_nodes; [done|]. by eapply nodes_import.
Qed.

Lemma path_identifies_fileb_sound files :
  path_identifies_fileb files = true → path_identifies_file files.
Proof.
  unfold path_identifies_fileb. rewrite forallb_forall.
  intros Hall f g Hf%Reachable_nodes%list_elem_of_In Hg%Reachable_nodes%list_elem_of_In Hpath.
  specialize (Hall f Hf). rewrite forallb_forall in Hall. specialize (Hall g Hg).
  rewrite bool_decide_eq_true_2 in Hall by done. by apply file_eqb_eq.
Qed.

End Deciding.

(** ** Order and completeness of the assembled sequence *)

Section Ordering.
Context `{Filepath} `{Descriptor}.

Lemma fileDescriptorSet_visited files :
  path_identifies_file files →
  visited (Reachable files) files [] ∅ (forEachFile toFileDescriptorProtoSlice files [] ∅).
Proof.
  intros Hpath. apply forEachFile_visited.
  - apply Forall_forall. intros file _. apply toFileDescriptorProtoSlice_visited.
    + intros f import Hf Himport. by eapply Reachable_import.
    + exact Hpath.
  - intros f Hf. by apply Reachable_requested.
  - split; [|split; [|split]].
    + intros proto Hin. by apply elem_of_nil in Hin.
    + apply NoDup_nil_2.
    + intros i proto D Hi. done.
    + intros proto Hin. by apply elem_of_nil in Hin.
  - intros g _ [Hin _]. by apply not_elem_of_empty in Hin.
Qed.

Lemma descriptors_of_names compiler dirPaths filePaths :
  (λ d, Name (GetFileDescriptorProto d)) <$> descriptors_of compiler dirPaths filePaths =
    Name <$> fileDescriptorSetForFileDescriptors
               (files (compiled compiler dirPaths filePaths)).
Proof. by rewrite <- descriptors_of_protos, <- list_fmap_compose. Qed.

(** C1, amended: in a successful compile whose linked files are identified
    by their paths, the sequence that compile assembles and hands to the
    conversion of package descriptor is dependency-first: whenever the
    descriptor at position i declares a dependency D, a descriptor named D
    stands at a position j < i.  The order of what the conversion returns
    is not part of the statement. *)
Theorem descriptors_dependency_first compiler dirPaths filePaths :
  err (compiled compiler dirPaths filePaths) = None →
  path_identifies_file (files (compiled compiler dirPaths filePaths)) →
  run compiler (compile dirPaths filePaths) =
    FileDescriptorsForProtoFileDescriptors (descriptors_of compiler dirPaths filePaths) ∧
  ∀ (i : nat) (d : descriptorv1_FileDescriptor) (D : string),
    descriptors_of compiler dirPaths filePaths !! i = Some d →
    D ∈ Dependency (GetFileDescriptorProto d) →
    ∃ (j : nat) (dep : descriptorv1_FileDescriptor),
      j < i ∧ descriptors_of compiler dirPaths filePaths !! j = Some dep ∧
      Name (GetFileDescriptorProto dep) = D.
Proof.
  intros Hok Hpath. split.
  { unfold compile, compiled, descriptors_of in *. simpl. by rewrite Hok. }
  destruct (fileDescriptorSet_visited _ Hpath) as ((_ & _ & Hfirst & _) & _).
  intros i d D Hi HD.
  destruct (Hfirst i (GetFileDescriptorProto d) D) as (j & dep & Hj & Hdep & Hname);
    [|done|].
  { fold (fileDescriptorSetForFileDescriptors (files (compiled compiler dirPaths filePaths))).
    by rewrite <- descriptors_of_protos, list_lookup_fmap, Hi. }
  fold (fileDescriptorSetForFileDescriptors (files (compiled compiler dirPaths filePaths)))
    in Hdep.
  rewrite <- descriptors_of_protos, list_lookup_fmap in Hdep.
  destruct (descriptors_of compiler dirPaths filePaths !! j) as [dep'|] eqn:Hj';
    simplify_eq/=.
  by exists j, dep'.
Qed.

(** C2: in a successful compile whose linked files are identified by
    their paths, every path reachable from the compiled files through
    imports is the name of exactly one descriptor of the assembled
    sequence, every descriptor is named after such a path, and the length
    of the sequence is the number of distinct reachable paths. *)
Theorem descriptors_exactly_once compiler dirPaths filePaths :
  err (compiled compiler dirPaths filePaths) = None →
  path_identifies_file (files (compiled compiler dirPaths filePaths)) →
  run compiler (compile dirPaths filePaths) =
    FileDescriptorsForProtoFileDescriptors (descriptors_of compiler dirPaths filePaths) ∧
  (∀ file, Reachable (files (compiled compiler dirPaths filePaths)) file →
     ∃ i d, descriptors_of compiler dirPaths filePaths !! i = Some d ∧
            Name (GetFileDescriptorProto d) = Path file ∧
            ∀ i' d', descriptors_of compiler dirPaths filePaths !! i' = Some d' →
                     Name (GetFileDescriptorProto d') = Path file → i' = i) ∧
  (∀ d, d ∈ descriptors_of compiler dirPaths filePaths →
     ∃ file, Reachable (files (compiled compiler dirPaths filePaths)) file ∧
             Path file = Name (GetFileDescriptorProto d)) ∧
  (∀ paths : gset string,
     (∀ path, path ∈ paths ↔
        ∃ file, Reachable (files (compiled compiler dirPaths filePaths)) file ∧
                Path file = path) →
     length (descriptors_of compiler dirPaths filePaths) = size paths).
Proof.
  intros Hok Hpath. split.
  { unfold compile, compiled, descriptors_of in *. simpl. by rewrite Hok. }
  destruct (fileDescriptorSet_visited _ Hpath) as ((Hfrom & Hnodup & _ & _) & _ & _ & Hall).
  fold (fileDescriptorSetForFileDescriptors (files (compiled compiler dirPaths filePaths)))
    in Hfrom, Hnodup, Hall.
  rewrite <- descriptors_of_names in Hnodup, Hall.
  set (ds := descriptors_of compiler dirPaths filePaths) in *.
  assert (Hfrom' : ∀ d, d ∈ ds →
    ∃ file, Reachable (files (compiled compiler dirPaths filePaths)) file ∧
            Path file = Name (GetFileDescriptorProto d)).
  { intros d Hd. destruct (Hfrom (GetFileDescriptorProto d)) as (file & Hfile & E).
    - unfold ds. rewrite <- descriptors_of_protos. apply list_elem_of_fmap. eauto.
    - exists file. split; [done|]. by rewrite E. }
  split; [|split; [done|]].
  - intros file Hfile. specialize (Hall file Hfile).
    apply list_elem_of_fmap in Hall as (d & Hname & (i & Hi)%list_elem_of_lookup_1).
    exists i, d. split; [done|]. split; [done|].
    intros i' d' Hi' Hname'.
    eapply NoDup_lookup; [exact Hnodup| |].
    + by rewrite list_lookup_fmap, Hi'.
    + rewrite list_lookup_fmap, Hi. simpl. by rewrite Hname', Hname.
  - intros paths Hpaths.
    assert (E : paths = list_to_set ((λ d, Name (GetFileDescriptorProto d)) <$> ds)).
    { apply set_eq. intros path. rewrite Hpaths, elem_of_list_to_set, list_elem_of_fmap.
      split.
      - intros (file & Hfile & <-). by apply list_elem_of_fmap, Hall.
      - intros (d & -> & Hd). by apply Hfrom'. }
    rewrite E, size_list_to_set by done. by rewrite length_fmap.
Qed.

End Ordering.

(** * The theorems at work on the example sources *)

Lemma compile_aborts_on_compiler_error_witness :
  err (@compiled unix_filepath (table_compiler dangling_sources) ["/root"] ["x.proto"])
    = Some (library_error "could not resolve path") ∧
  run (table_compiler dangling_sources)
    (@compile unix_filepath elementwise_descriptor ["/root"] ["x.proto"])
    = (None, Some (library_error "could not resolve path")).
Proof.
  split; [vm_compute; reflexivity|].
  apply (@compile_aborts_on_compiler_error unix_filepath elementwise_descriptor).
  vm_compute; reflexivity.
Defined.

Lemma ToFileDescriptors_validates_first_witness :
  (DirPaths {| DirPaths := []; FilePaths := ["x.proto"] |} = [] ∨
   FilePaths {| DirPaths := []; FilePaths := ["x.proto"] |} = []) ∧
  ∃ text,
    (DirPaths {| DirPaths := []; FilePaths := ["x.proto"] |} = [] ∧
       text = "no DirPaths specified on ProtoFileSpec" ∨
     DirPaths {| DirPaths := []; FilePaths := ["x.proto"] |} ≠ [] ∧
       FilePaths {| DirPaths := []; FilePaths := ["x.proto"] |} = [] ∧
       text = "no FilePaths specified on ProtoFileSpec") ∧
    validateProtoFileSpec {| DirPaths := []; FilePaths := ["x.proto"] |}
      = Some (errors_New text) ∧
    @ToFileDescriptors unix_filepath elementwise_descriptor
      (Some {| DirPaths := []; FilePaths := ["x.proto"] |})
      = Return (None, Some (errors_New text)) ∧
    ∀ compiler,
      invocations compiler (@ToFileDescriptors unix_filepath elementwise_descriptor
        (Some {| DirPaths := []; FilePaths := ["x.proto"] |})) = 0 ∧
      run compiler (@ToFileDescriptors unix_filepath elementwise_descriptor
        (Some {| DirPaths := []; FilePaths := ["x.proto"] |}))
        = (None, Some (errors_New text)).
Proof.
  split; [left; reflexivity|].
  apply (@ToFileDescriptors_validates_first unix_filepath elementwise_descriptor).
  left; reflexivity.
Defined.

Lemma isImport_by_path_as_written_counterexample :
  err (@compiled unix_filepath (table_compiler diamond_sources) ["/root"] ["./x.proto"])
    = None ∧
  ¬ @isImport_by_path_as_written unix_filepath (table_compiler diamond_sources)
      ["/root"] ["./x.proto"].
Proof.
  split; [vm_compute; reflexivity|].
  intros Hclaim.
  destruct (Hclaim
    {| GetFileDescriptorProto :=
         {| Name := "x.proto"; Dependency := ["y.proto"; "z.proto"] |};
       IsImport := false; IsSyntaxUnspecified := true;
       UnusedDependency := Some [1%Z] |}) as [Hmember _].
  - apply (list_elem_of_lookup_2 _ 3). vm_compute; reflexivity.
  - specialize (Hmember eq_refl). simpl in Hmember.
    apply list_elem_of_singleton in Hmember. discriminate Hmember.
Qed.

Lemma isImport_false_iff_requested_name_witness :
  err (@compiled unix_filepath (table_compiler diamond_sources) ["/root"] ["./x.proto"])
    = None ∧
  run (table_compiler diamond_sources)
    (@compile unix_filepath elementwise_descriptor ["/root"] ["./x.proto"]) =
    @FileDescriptorsForProtoFileDescriptors elementwise_descriptor
      (@descriptors_of unix_filepath (table_compiler diamond_sources)
         ["/root"] ["./x.proto"]) ∧
  ∀ d, d ∈ @descriptors_of unix_filepath (table_compiler diamond_sources)
             ["/root"] ["./x.proto"] →
    (IsImport d = false ↔
     Name (GetFileDescriptorProto d) ∈ @requested_names unix_filepath ["./x.proto"]).
Proof.
  split; [vm_compute; reflexivity|].
  apply (@isImport_false_iff_requested_name unix_filepath elementwise_descriptor).
  vm_compute; reflexivity.
Defined.


Lemma descriptors_dependency_first_witness :
  err (@compiled unix_filepath (table_compiler diamond_sources) ["/root"] ["x.proto"])
    = None ∧
  path_identifies_file
    (files (@compiled unix_filepath (table_compiler diamond_sources)
              ["/root"] ["x.proto"])) ∧
  ∀ (i : nat) (d : descriptorv1_FileDescriptor) (D : string),
    @descriptors_of unix_filepath (table_compiler diamond_sources)
      ["/root"] ["x.proto"] !! i = Some d →
    D ∈ Dependency (GetFileDescriptorProto d) →
    ∃ (j : nat) (dep : descriptorv1_FileDescriptor),
      j < i ∧
      @descriptors_of unix_filepath (table_compiler diamond_sources)
        ["/root"] ["x.proto"] !! j = Some dep ∧
      Name (GetFileDescriptorProto dep) = D.
Proof.
  assert (Hok : err (@compiled unix_filepath (table_compiler diamond_sources)
                       ["/root"] ["x.proto"]) = None).
  { vm_compute; reflexivity. }
  assert (Hpath : path_identifies_file
    (files (@compiled unix_filepath (table_compiler diamond_sources)
              ["/root"] ["x.proto"]))).
  { apply path_identifies_fileb_sound. vm_compute; reflexivity. }
  split; [exact Hok|]. split; [exact Hpath|].
  apply (@descriptors_dependency_first unix_filepath elementwise_descriptor _ _ _ Hok Hpath).
Defined.

Lemma descriptors_exactly_once_witness :
  err (@compiled unix_filepath (table_compiler diamond_sources) ["/root"] ["x.proto"])
    = None ∧
  path_identifies_file
    (files (@compiled unix_filepath (table_compiler diamond_sources)
              ["/root"] ["x.proto"])) ∧
  length (@descriptors_of unix_filepath (table_compiler diamond_sources)
            ["/root"] ["x.proto"]) = 4 ∧
  ∀ paths : gset string,
    (∀ path, path ∈ paths ↔
       ∃ file, Reachable (files (@compiled unix_filepath (table_compiler diamond_sources)
                                   ["/root"] ["x.proto"])) file ∧
               Path file = path) →
    length (@descriptors_of unix_filepath (table_compiler diamond_sources)
              ["/root"] ["x.proto"]) = size paths.
Proof.
  assert (Hok : err (@compiled unix_filepath (table_compiler diamond_sources)
                       ["/root"] ["x.proto"]) = None).
  { vm_compute; reflexivity. }
  assert (Hpath : path_identifies_file
    (files (@compiled unix_filepath (table_compiler diamond_sources)
              ["/root"] ["x.proto"]))).
  { apply path_identifies_fileb_sound. vm_compute; reflexivity. }
  split; [exact Hok|]. split; [exact Hpath|]. split; [vm_compute; reflexivity|].
  apply (@descriptors_exactly_once unix_filepath elementwise_descriptor _ _ _ Hok Hpath).
Defined.

(** The diamond, compiled: w once, before y and z, which come before x; only
    x was asked for; x has no syntax declaration and does not use its import
    at position 1. *)
Example compile_diamond :
  run (table_compiler diamond_sources)
    (@compile unix_filepath elementwise_descriptor ["/root"] ["x.proto"]) =
  (Some
     [ {| GetFileDescriptorProto := {| Name := "w.proto"; Dependency := [] |};
          IsImport := true; IsSyntaxUnspecified := false; UnusedDependency := Some [] |};
       {| GetFileDescriptorProto := {| Name := "y.proto"; Dependency := ["w.proto"] |};
          IsImport := true; IsSyntaxUnspecified := false; UnusedDependency := Some [] |};
       {| GetFileDescriptorProto := {| Name := "z.proto"; Dependency := ["w.proto"] |};
          IsImport := true; IsSyntaxUnspecified := false; UnusedDependency := Some [] |};
       {| GetFileDescriptorProto :=
            {| Name := "x.proto"; Dependency := ["y.proto"; "z.proto"] |};
          IsImport := false; IsSyntaxUnspecified := true;
          UnusedDependency := Some [1%Z] |} ],
   None).
Proof. vm_compute; reflexivity. Qed.

(** Asking for an import as well makes it a requested file. *)
Example compile_diamond_two_requested :
  (λ d, (Name (GetFileDescriptorProto d), IsImport d)) <$>
    @descriptors_of unix_filepath (table_compiler diamond_sources)
      ["/root"] ["x.proto"; "dir/../w.proto"] =
  [("w.proto", false); ("y.proto", true); ("z.proto", true); ("x.proto", false)].
Proof. vm_compute; reflexivity. Qed.

Example unix_Clean_examples :
  unix_Clean <$> [""; "./x.proto"; "a//b/../c.proto"; "/../a/"; "../../a/.."; "a/.."; "/"] =
  ["."; "x.proto"; "a/c.proto"; "/a"; "../.."; "."; "/"].
Proof. vm_compute; reflexivity. Qed.

(** A valid ProtoFileSpec reaches the compiler exactly once. *)
Example ToFileDescriptors_invokes_compiler :
  invocations (table_compiler diamond_sources)
    (@ToFileDescriptors unix_filepath elementwise_descriptor
       (Some {| DirPaths := ["/root"]; FilePaths := ["x.proto"] |})) = 1.
Proof. vm_compute; reflexivity. Qed.

(** * Further properties of package info *)

Section ValidateSpec.
Context `{InfoLibraries}.

Lemma orElse_None check rest : orElse check rest = None ↔ check = None ∧ rest = None.
Proof. destruct check; simpl; naive_solver. Qed.

Lemma validateSpecAbsoluteURL_None urlString :
  validateSpecAbsoluteURL urlString = None ↔ absolute_URL urlString.
Proof.
  unfold validateSpecAbsoluteURL, absolute_URL.
  destruct (url_Parse urlString) as [url|perr].
  - destruct (decide (Host url = "")) as [Hhost|Hhost]; split; try done.
    + intros (url' & [= <-] & Hne). done.
    + intros _. by exists url.
  - split; [done|]. intros (url & [=] & _).
Qed.

Lemma validateSpecAbsoluteURL_Some urlString e :
  validateSpecAbsoluteURL urlString = Some e →
  (∃ perr, url_Parse urlString = inr perr ∧
           e = newValidateSpecErrorf_wrap "invalid URL: %w" perr) ∨
  (∃ url, url_Parse urlString = inl url ∧ Host url = "" ∧
          e = newValidateSpecErrorf "invalid URL: must be absolute: %q" urlString).
Proof.
  unfold validateSpecAbsoluteURL.
  destruct (url_Parse urlString) as [url|perr].
  - destruct (decide (Host url = "")) as [Hhost|Hhost]; [|done].
    intros [= <-]. right. by exists url.
  - intros [= <-]. left. by exists perr.
Qed.

(** X1: ValidateSpec accepts a spec exactly when URL is empty or absolute,
    SPDXLicenseID is empty or in the license list, LicenseText and
    LicenseURL are not both set, LicenseURL is empty or absolute, and DocLong
    is empty or comes with a DocShort. *)
Theorem ValidateSpec_accepts_iff (spec : Spec) :
  ValidateSpec spec = None ↔
  (URL spec = "" ∨ absolute_URL (URL spec)) ∧
  (SPDXLicenseID spec = "" ∨ is_Some (spdx_LicenseForID (SPDXLicenseID spec))) ∧
  (LicenseText spec = "" ∨ LicenseURL spec = "") ∧
  (LicenseURL spec = "" ∨ absolute_URL (LicenseURL spec)) ∧
  (DocLong spec = "" ∨ DocShort spec ≠ "").
Proof.
  unfold ValidateSpec. rewrite !orElse_None.
  assert (Hurl : ∀ u, (if decide (u ≠ "") then validateSpecAbsoluteURL u else None) = None
                      ↔ u = "" ∨ absolute_URL u).
  { intros u. destruct (decide (u ≠ "")) as [Hu|Hu].
    - rewrite validateSpecAbsoluteURL_None. naive_solver.
    - apply dec_stable in Hu. naive_solver. }
  rewrite !Hurl.
  assert (Hid : (if decide (SPDXLicenseID spec ≠ "")
                 then match spdx_LicenseForID (SPDXLicenseID spec) with
                      | Some _ => None
                      | None => Some (newValidateSpecErrorf "invalid SPDXLicenseID: %q"
                                        (SPDXLicenseID spec))
                      end
                 else None) = None
                ↔ SPDXLicenseID spec = "" ∨ is_Some (spdx_LicenseForID (SPDXLicenseID spec))).
  { destruct (decide (SPDXLicenseID spec ≠ "")) as [Hu|Hu].
    - destruct (spdx_LicenseForID (SPDXLicenseID spec)) as [l|].
      + split; [intros _; right; eauto | done].
      + split; [done | intros [?|[? [=]]]; done].
    - apply dec_stable in Hu. naive_solver. }
  rewrite Hid.
  assert (Hboth : (if decide (LicenseText spec ≠ "" ∧ LicenseURL spec ≠ "")
                   then Some (newValidateSpecError
                                "only one of LicenseText and LicenseURL can be set")
                   else None) = None
                  ↔ LicenseText spec = "" ∨ LicenseURL spec = "").
  { destruct (decide (LicenseText spec ≠ "" ∧ LicenseURL spec ≠ "")) as [Hb|Hb].
    - split; [done | naive_solver].
    - split; [intros _ | done].
      destruct (decide (LicenseText spec = "")); [by left | right].
      destruct (decide (LicenseURL spec = "")); [done | naive_solver]. }
  rewrite Hboth.
  assert (Hdoc : (if decide (DocShort spec = "" ∧ DocLong spec ≠ "")
                  then Some (newValidateSpecError
                               "DocShort is empty while DocLong is not empty")
                  else None) = None
                 ↔ DocLong spec = "" ∨ DocShort spec ≠ "").
  { destruct (decide (DocShort spec = "" ∧ DocLong spec ≠ "")) as [Hb|Hb].
    - split; [done | naive_solver].
    - split; [intros _ | done].
      destruct (decide (DocLong spec = "")); [by left | right]. naive_solver. }
  rewrite Hdoc. naive_solver.
Qed.

(** X2: every error of ValidateSpec names a violation the spec has: a URL
    or LicenseURL that is set and does not parse, or parses without a host;
    an SPDXLicenseID that is set and not in the license list; LicenseText
    and LicenseURL both set; or a DocLong without a DocShort. *)
Theorem ValidateSpec_error_has_cause (spec : Spec) (e : error) :
  ValidateSpec spec = Some e →
  (∃ u perr, (u = URL spec ∨ u = LicenseURL spec) ∧ u ≠ "" ∧
             url_Parse u = inr perr ∧
             e = newValidateSpecErrorf_wrap "invalid URL: %w" perr) ∨
  (∃ u url, (u = URL spec ∨ u = LicenseURL spec) ∧ u ≠ "" ∧
            url_Parse u = inl url ∧ Host url = "" ∧
            e = newValidateSpecErrorf "invalid URL: must be absolute: %q" u) ∨
  (SPDXLicenseID spec ≠ "" ∧ spdx_LicenseForID (SPDXLicenseID spec) = None ∧
   e = newValidateSpecErrorf "invalid SPDXLicenseID: %q" (SPDXLicenseID spec)) ∨
  (LicenseText spec ≠ "" ∧ LicenseURL spec ≠ "" ∧
   e = newValidateSpecError "only one of LicenseText and LicenseURL can be set") ∨
  (DocShort spec = "" ∧ DocLong spec ≠ "" ∧
   e = newValidateSpecError "DocShort is empty while DocLong is not empty").
Proof.
  assert (Hurl : ∀ u, (u = URL spec ∨ u = LicenseURL spec) →
    (if decide (u ≠ "") then validateSpecAbsoluteURL u else None) = Some e →
    (∃ u perr, (u = URL spec ∨ u = LicenseURL spec) ∧ u ≠ "" ∧
               url_Parse u = inr perr ∧
               e = newValidateSpecErrorf_wrap "invalid URL: %w" perr) ∨
    (∃ u url, (u = URL spec ∨ u = LicenseURL spec) ∧ u ≠ "" ∧
              url_Parse u = inl url ∧ Host url = "" ∧
              e = newValidateSpecErrorf "invalid URL: must be absolute: %q" u)).
  { intros u Hu. destruct (decide (u ≠ "")) as [Hne|]; [|done].
    intros [(perr & Hp & ->)|(url & Hp & Hh & ->)]%validateSpecAbsoluteURL_Some.
    - left. by exists u, perr.
    - right. by exists u, url. }
  unfold ValidateSpec.
  intros [H1|[_ [H2|[_ [H3|[_ [H4|[_ [H5|[_ [=]]]%orElse_Some]]%orElse_Some]]%orElse_Some]]
    %orElse_Some]]%orElse_Some.
  - destruct (Hurl _ (or_introl eq_refl) H1) as [?|?]; [by left | by right; left].
  - right; right; left.
    destruct (decide (SPDXLicenseID spec ≠ "")) as [Hne|]; [|done].
    destruct (spdx_LicenseForID (SPDXLicenseID spec)); [done|].
    by injection H2 as <-.
  - right; right; right; left.
    destruct (decide (LicenseText spec ≠ "" ∧ LicenseURL spec ≠ "")) as [[? ?]|]; [|done].
    by injection H3 as <-.
  - destruct (Hurl _ (or_intror eq_refl) H4) as [?|?]; [by left | by right; left].
  - right; right; right; right.
    destruct (decide (DocShort spec = "" ∧ DocLong spec ≠ "")) as [[? ?]|]; [|done].
    by injection H5 as <-.
Qed.

End ValidateSpec.

(** * Further properties of the traversal *)

Section AnyImportTree.
Implicit Types (file import : protoreflect_FileDescriptor).
Implicit Types (results : list FileDescriptorProto) (soFar : gset string).

Lemma forEachFile_app visit files1 files2 results soFar :
  forEachFile visit (files1 ++ files2) results soFar =
    let '(results1, soFar1) := forEachFile visit files1 results soFar in
    forEachFile visit files2 results1 soFar1.
Proof.
  revert results soFar. induction files1 as [|file files1 IH]; intros results soFar; simpl.
  - done.
  - destruct (visit file results soFar) as [results1 soFar1]. apply IH.
Qed.

Lemma forEachFile_extends files :
  Forall visit_extends files →
  ∀ results soFar, marked results soFar →
    extended files results soFar (forEachFile toFileDescriptorProtoSlice files results soFar).
Proof.
  induction 1 as [|file files Hfile _ IH]; intros results soFar Hmarked.
  - simpl. split; [done|]. split; [done|]. split; [done|]. split.
    + intros file Hin. by apply elem_of_nil in Hin.
    + exists []. split; [by rewrite app_nil_r|]. intros proto Hin. by apply elem_of_nil in Hin.
  - simpl. destruct (Hfile results soFar Hmarked)
      as (Hmarked1 & Hsub1 & Hprog1 & Hown1 & new1 & Hnew1 & Hfrom1).
    destruct (toFileDescriptorProtoSlice file results soFar) as [results1 soFar1].
    simpl in *.
    destruct (IH results1 soFar1 Hmarked1)
      as (Hmarked2 & Hsub2 & Hprog2 & Hown2 & new2 & Hnew2 & Hfrom2).
    destruct (forEachFile toFileDescriptorProtoSlice files results1 soFar1)
      as [results2 soFar2].
    simpl in *. split; [done|]. split; [set_solver|]. split; [|split].
    + intros path. by rewrite Hprog2, Hprog1.
    + intros f [->|Hf]%elem_of_cons.
      * apply Hsub2, Hown1. by left.
      * by apply Hown2.
    + exists (new1 ++ new2). split; [by rewrite Hnew2, Hnew1, app_assoc|].
      intros proto [Hin|Hin]%elem_of_app.
      * destruct (Hfrom1 proto Hin) as (g & Hg & ->). exists g. split; [|done].
        apply Reachable_cons. by left.
      * destruct (Hfrom2 proto Hin) as (g & Hg & ->). exists g. split; [|done].
        apply Reachable_cons. by right.
Qed.

Lemma toFileDescriptorProtoSlice_extends file : visit_extends file.
Proof.
  induction file as [path imports IH] using FileDescriptor_ind'.
  intros results soFar Hmarked.
  set (file := mkFile path imports) in *.
  rewrite toFileDescriptorProtoSlice_eq.
  change (Path file) with path. change (Imports file) with imports.
  destruct (decide (path ∈ soFar)) as [Hseen|Hnew].
  - simpl. split; [done|]. split; [done|]. split; [done|]. split.
    + by intros f ->%list_elem_of_singleton.
    + exists []. split; [by rewrite app_nil_r|]. intros proto Hin. by apply elem_of_nil in Hin.
  - destruct Hmarked as [Hnodup Hnames].
    assert (Hfresh : path ∉ Name <$> results).
    { intros (proto & -> & Hin)%list_elem_of_fmap. by apply Hnew, Hnames. }
    destruct (forEachFile_extends imports IH results ({[path]} ∪ soFar))
      as ((Hnodup2 & Hnames2) & Hsub2 & Hprog2 & _ & new & Hnew2 & Hfrom2).
    { split; [done|]. intros proto Hin. apply elem_of_union_r. by apply Hnames. }
    destruct (forEachFile toFileDescriptorProtoSlice imports results ({[path]} ∪ soFar))
      as [results2 soFar2].
    simpl in *.
    assert (Hprog : in_progress results2 soFar2 path).
    { apply Hprog2. split; [set_solver | done]. }
    unfold extended, marked. simpl. split; [split|split; [|split; [|split]]].
    + rewrite fmap_app. apply NoDup_app. split; [done|]. split.
      * intros name Hin ->%list_elem_of_singleton. by destruct Hprog.
      * apply NoDup_singleton.
    + intros proto [Hin| ->%list_elem_of_singleton]%elem_of_app; [by apply Hnames2|].
      by destruct Hprog.
    + set_solver.
    + intros q. unfold in_progress in *. rewrite fmap_app, not_elem_of_app.
      change (Name <$> [ProtoFromFileDescriptor file]) with [path].
      rewrite list_elem_of_singleton. specialize (Hprog2 q).
      destruct (decide (q = path)) as [->|Hq]; set_solver.
    + intros f ->%list_elem_of_singleton. by destruct Hprog.
    + exists (new ++ [ProtoFromFileDescriptor file]).
      split; [by rewrite Hnew2, app_assoc|].
      intros proto [Hin| ->%list_elem_of_singleton]%elem_of_app.
      * destruct (Hfrom2 proto Hin) as (g & Hg & ->). exists g. split; [|done].
        apply Reachable_singleton. by right.
      * exists file. split; [|done]. apply Reachable_requested. by left.
Qed.

(** Between two requested files nothing is in progress: the marked paths are
    the names of the protos. *)
Lemma forEachFile_top files :
  extended files [] ∅ (forEachFile toFileDescriptorProtoSlice files [] ∅) ∧
  ∀ path, path ∈ (forEachFile toFileDescriptorProtoSlice files [] ∅).2 ↔
          path ∈ Name <$> (forEachFile toFileDescriptorProtoSlice files [] ∅).1.
Proof.
  assert (Hext : extended files [] ∅ (forEachFile toFileDescriptorProtoSlice files [] ∅)).
  { apply forEachFile_extends.
    - apply Forall_forall. intros file _. apply toFileDescriptorProtoSlice_extends.
    - split; [apply NoDup_nil_2|]. intros proto Hin. by apply elem_of_nil in Hin. }
  split; [done|].
  destruct Hext as ((_ & Hnames) & _ & Hprog & _).
  intros path. split.
  - intros Hin.
    destruct (decide (path ∈ Name <$> (forEachFile toFileDescriptorProtoSlice files [] ∅).1))
      as [|Hnot]; [done|].
    destruct (proj1 (Hprog path) (conj Hin Hnot)) as [Hempty _].
    by apply not_elem_of_empty in Hempty.
  - intros (proto & -> & Hin)%list_elem_of_fmap. by apply Hnames.
Qed.

(** X3: on any import tree, also one in which a path stands for different
    files, the descriptor set never holds two protos of the same name, names
    every requested file, and holds only protos of files reachable from the
    requested ones. *)
Theorem fileDescriptorSet_names_distinct (files : list protoreflect_FileDescriptor) :
  NoDup (Name <$> fileDescriptorSetForFileDescriptors files) ∧
  (∀ file, file ∈ files → Path file ∈ Name <$> fileDescriptorSetForFileDescriptors files) ∧
  (∀ proto, proto ∈ fileDescriptorSetForFileDescriptors files →
     ∃ file, Reachable files file ∧ proto = ProtoFromFileDescriptor file).
Proof.
  unfold fileDescriptorSetForFileDescriptors. simpl.
  destruct (forEachFile_top files)
    as (((Hnodup & _) & _ & _ & Hown & new & Hnew & Hfrom) & Hsame).
  split; [done|]. split.
  - intros file Hin. by apply Hsame, Hown.
  - intros proto Hin. apply Hfrom. by rewrite Hnew in Hin.
Qed.

(** X4: requesting further files only appends: the descriptor set of
    files1 ++ files2 starts with the descriptor set of files1, and what
    follows are protos of files reachable from files2 under names that were
    not there before. *)
Theorem fileDescriptorSet_app (files1 files2 : list protoreflect_FileDescriptor) :
  ∃ new,
    fileDescriptorSetForFileDescriptors (files1 ++ files2) =
      fileDescriptorSetForFileDescriptors files1 ++ new ∧
    ∀ proto, proto ∈ new →
      (Name proto ∉ Name <$> fileDescriptorSetForFileDescriptors files1) ∧
      ∃ file, Reachable files2 file ∧ proto = ProtoFromFileDescriptor file.
Proof.
  unfold fileDescriptorSetForFileDescriptors. simpl. rewrite forEachFile_app.
  destruct (forEachFile_top files1) as ((Hmarked1 & _) & _).
  destruct (forEachFile toFileDescriptorProtoSlice files1 [] ∅) as [results1 soFar1].
  simpl in *.
  destruct (forEachFile_extends files2) with (results := results1) (soFar := soFar1)
    as ((Hnodup2 & _) & _ & _ & _ & new & Hnew & Hfrom); [|done|].
  { apply Forall_forall. intros file _. apply toFileDescriptorProtoSlice_extends. }
  destruct (forEachFile toFileDescriptorProtoSlice files2 results1 soFar1)
    as [results2 soFar2].
  simpl in *. exists new. split; [done|].
  intros proto Hin. split; [|by apply Hfrom].
  rewrite Hnew, fmap_app in Hnodup2. apply NoDup_app in Hnodup2 as (_ & Hdisjoint & _).
  intros Hold. apply (Hdisjoint _ Hold). apply list_elem_of_fmap. eauto.
Qed.

(** X5: requesting once more a file whose path already names a proto of
    the descriptor set, be it a requested file or an import of one, leaves
    the descriptor set as it is. *)
Theorem fileDescriptorSet_requested_again files file :
  Path file ∈ Name <$> fileDescriptorSetForFileDescriptors files →
  fileDescriptorSetForFileDescriptors (files ++ [file]) =
    fileDescriptorSetForFileDescriptors files.
Proof.
  unfold fileDescriptorSetForFileDescriptors. simpl. rewrite forEachFile_app.
  destruct (forEachFile_top files) as (_ & Hsame).
  destruct (forEachFile toFileDescriptorProtoSlice files [] ∅) as [results1 soFar1].
  simpl in *. intros Hin%Hsame.
  rewrite toFileDescriptorProtoSlice_eq. by rewrite decide_True.
Qed.

(** X6: a requested file whose path names no proto yet comes last: its
    proto ends the descriptor set, behind protos of files its imports
    reach. *)
Theorem fileDescriptorSet_requested_last files file :
  Path file ∉ Name <$> fileDescriptorSetForFileDescriptors files →
  ∃ new,
    fileDescriptorSetForFileDescriptors (files ++ [file]) =
      (fileDescriptorSetForFileDescriptors files ++ new ++ [ProtoFromFileDescriptor file]) ∧
    ∀ proto, proto ∈ new →
      ∃ import, Reachable (Imports file) import ∧ proto = ProtoFromFileDescriptor import.
Proof.
  unfold fileDescriptorSetForFileDescriptors. simpl. rewrite forEachFile_app.
  destruct (forEachFile_top files) as (((Hnodup1 & Hnames1) & _) & Hsame).
  destruct (forEachFile toFileDescriptorProtoSlice files [] ∅) as [results1 soFar1].
  simpl in *. intros Hnot.
  rewrite toFileDescriptorProtoSlice_eq. rewrite decide_False by (by rewrite Hsame).
  destruct (forEachFile_extends (Imports file)) with (results := results1)
    (soFar := {[Path file]} ∪ soFar1) as (_ & _ & _ & _ & new & Hnew & Hfrom).
  { apply Forall_forall. intros import _. apply toFileDescriptorProtoSlice_extends. }
  { split; [done|]. intros proto Hin. apply elem_of_union_r. by apply Hnames1. }
  destruct (forEachFile toFileDescriptorProtoSlice (Imports file) results1
              ({[Path file]} ∪ soFar1)) as [results2 soFar2].
  simpl in *. exists new. split; [by rewrite Hnew, app_assoc | done].
Qed.

End AnyImportTree.

Section LinkedImportTree.
Implicit Types (file import : protoreflect_FileDescriptor).

(** X7: when a path stands for one linked file, the proto of a file comes
    behind the proto of everything the file imports, directly or through
    other imports. *)
Theorem fileDescriptorSet_transitive_imports_first
    (files : list protoreflect_FileDescriptor) :
  path_identifies_file files →
  ∀ (i : nat) proto file import,
    fileDescriptorSetForFileDescriptors files !! i = Some proto →
    Name proto = Path file → Reachable files file →
    Reachable (Imports file) import →
    ∃ j, j < i ∧
      fileDescriptorSetForFileDescriptors files !! j = Some (ProtoFromFileDescriptor import).
Proof.
  intros Hpath.
  destruct (fileDescriptorSet_visited files Hpath) as ((Hfrom & _ & Hfirst & _) & _).
  fold (fileDescriptorSetForFileDescriptors files) in Hfrom, Hfirst.
  assert (Hdirect : ∀ (i : nat) proto file import,
    fileDescriptorSetForFileDescriptors files !! i = Some proto →
    Name proto = Path file → Reachable files file → import ∈ Imports file →
    ∃ j, j < i ∧
      fileDescriptorSetForFileDescriptors files !! j = Some (ProtoFromFileDescriptor import)).
  { intros i proto file import Hi Hname Hfile Himport.
    destruct (Hfrom proto) as (file' & Hfile' & ->); [by eapply list_elem_of_lookup_2|].
    assert (file' = file) as -> by (by apply Hpath).
    destruct (Hfirst i _ (Path import) Hi) as (j & dep & Hj & Hdep & Hdepname).
    { simpl. apply list_elem_of_fmap. eauto. }
    destruct (Hfrom dep) as (import' & Himport' & ->); [by eapply list_elem_of_lookup_2|].
    assert (import' = import) as ->.
    { apply Hpath; [done | exact (Reachable_import _ _ _ Hfile Himport) | done]. }
    by exists j. }
  intros i proto file import Hi Hname Hfile Hreach.
  induction Hreach as [import Hin|mid import Hmid IH Himport].
  - by eapply Hdirect.
  - destruct IH as (j & Hj & Hmidproto).
    destruct (Hdirect j _ mid import Hmidproto) as (k & Hk & Hproto); [done| |done|].
    { assert (Hsub : Reachable [file] mid) by (apply Reachable_singleton; by right).
      revert Hsub. apply Reachable_mono. by intros f ->%list_elem_of_singleton. }
    exists k. split; [lia | done].
Qed.

End LinkedImportTree.

(** * Further properties of the annotations *)

Section Indexes.
Implicit Types (unused : gset string) (deps : list string).

Lemma positions_in_ascending unused deps : ∀ (a b x y : nat),
  a < b → positions_in unused deps !! a = Some x → positions_in unused deps !! b = Some y →
  x < y.
Proof.
  induction deps as [|dep deps IH]; intros a b x y Hab Ha Hb.
  - unfold positions_in in Ha. simpl in Ha. done.
  - rewrite positions_in_cons in Ha, Hb.
    assert (Htail : ∀ c z, (S <$> positions_in unused deps) !! c = Some z →
                           ∃ z', z = S z' ∧ positions_in unused deps !! c = Some z').
    { intros c z. rewrite list_lookup_fmap.
      destruct (positions_in unused deps !! c) as [z'|]; [|done].
      intros [= <-]. eauto. }
    destruct (decide (dep ∈ unused)); simpl in Ha, Hb.
    + destruct a as [|a], b as [|b]; simpl in *; try lia.
      * injection Ha as <-. apply Htail in Hb as (y' & -> & _). lia.
      * apply Htail in Ha as (x' & -> & Hx). apply Htail in Hb as (y' & -> & Hy).
        assert (x' < y') by (eapply (IH a b); [lia|done..]). lia.
    + apply Htail in Ha as (x' & -> & Hx). apply Htail in Hb as (y' & -> & Hy).
      assert (x' < y') by (by eapply (IH a b)). lia.
Qed.

(** X8: for a dependency list that int32 can index, the indexes returned
    are exactly the positions of the dependency list that hold a path of the
    unused set (so a path of the set that is no dependency gives none), in
    strictly ascending order, hence without repetition, and no more than
    there are dependencies. *)
Theorem unusedDependencyIndexes_valid proto unused indexes :
  (Z.of_nat (length (Dependency proto)) ≤ 2 ^ 31)%Z →
  unusedDependencyIndexesForFilePathToUnusedDependencyFilePaths proto unused = Some indexes →
  (∀ z, z ∈ indexes ↔
        ∃ (i : nat) path, z = Z.of_nat i ∧ Dependency proto !! i = Some path ∧ path ∈ unused) ∧
  (∀ (a b : nat) (x y : Z),
     a < b → indexes !! a = Some x → indexes !! b = Some y → (x < y)%Z) ∧
  (length indexes ≤ length (Dependency proto))%nat.
Proof.
  intros Hlen. rewrite unusedDependencyIndexes_positions_small by done.
  intros [= <-]. split; [|split].
  - intros z. rewrite list_elem_of_fmap. unfold positions_in.
    setoid_rewrite list_elem_of_filter. setoid_rewrite elem_of_seq. unfold unused_at.
    split.
    + intros (i & -> & (path & Hi & Hin) & _). by exists i, path.
    + intros (i & path & -> & Hi & Hin). exists i. split; [done|]. split; [by exists path|].
      apply lookup_lt_Some in Hi. lia.
  - intros a b x y Hab. rewrite !list_lookup_fmap.
    destruct (positions_in unused (Dependency proto) !! a) as [x'|] eqn:Ha; [|done].
    destruct (positions_in unused (Dependency proto) !! b) as [y'|] eqn:Hb; [|done].
    intros [= <-] [= <-].
    pose proof (positions_in_ascending _ _ _ _ _ _ Hab Ha Hb). lia.
  - rewrite length_fmap. unfold positions_in.
    etrans; [apply length_filter|]. by rewrite length_seq.
Qed.

End Indexes.

Section FurtherAnnotations.
Context `{Filepath} `{Descriptor}.

(** X9: in a successful compile, isSyntaxUnspecified is true exactly for
    the descriptors whose name is the file name of a warning that is
    parser.ErrNoSyntax. *)
Theorem isSyntaxUnspecified_iff_warning compiler dirPaths filePaths :
  err (compiled compiler dirPaths filePaths) = None →
  run compiler (compile dirPaths filePaths) =
    FileDescriptorsForProtoFileDescriptors (descriptors_of compiler dirPaths filePaths) ∧
  ∀ d, d ∈ descriptors_of compiler dirPaths filePaths →
    (IsSyntaxUnspecified d = true ↔
     ∃ w, w ∈ warningErrorsWithPos (compiled compiler dirPaths filePaths) ∧
          Is_ErrNoSyntax w = true ∧ Filename w = Name (GetFileDescriptorProto d)).
Proof.
  intros Hok. split; [by rewrite run_compile, Hok|].
  intros d (_ & -> & _)%elem_of_descriptors_of.
  rewrite bool_decide_eq_true.
  destruct (foldl_classifyWarning_spec
              (warningErrorsWithPos (compiled compiler dirPaths filePaths)) ∅ ∅)
    as (Hsyntax & _ & _).
  unfold classifyWarnings. rewrite Hsyntax. set_solver.
Qed.

(** X10: a warning positioned at a file that is not in the descriptor set
    changes nothing of what compile assembles. *)
Theorem warning_for_other_file_ignored filePaths (r : CompileResult) before after w :
  warningErrorsWithPos r = before ++ w :: after →
  Filename w ∉ Name <$> fileDescriptorSetForFileDescriptors (files r) →
  assembled filePaths r = assembled filePaths (with_warnings r (before ++ after)).
Proof.
  intros Hwarnings Hother. unfold assembled, with_warnings. simpl.
  rewrite Hwarnings.
  rewrite (classifyWarnings_Permutation (before ++ w :: after) ((before ++ after) ++ [w])).
  2:{ rewrite <- Permutation_middle. by rewrite <- Permutation_cons_append. }
  unfold classifyWarnings at 1. rewrite foldl_app. simpl.
  fold (classifyWarnings (before ++ after)).
  destruct (classifyWarnings (before ++ after)) as [s u]. simpl.
  unfold protoFileDescriptors. apply list_fmap_ext.
  intros i proto Hi.
  assert (Hne : Filename w ≠ Name proto).
  { intros E. apply Hother. rewrite E. apply list_elem_of_fmap. exists proto.
    split; [done|]. by eapply list_elem_of_lookup_2. }
  f_equal.
  - apply bool_decide_ext. rewrite maybeAddSyntaxUnspecified_elem. naive_solver.
  - do 2 f_equal. destruct (As_ErrorUnusedImport w) as [unusedImport|] eqn:Has.
    + rewrite (maybeAddUnusedDependency_Some _ _ _ Has). by rewrite lookup_insert_ne.
    + by rewrite maybeAddUnusedDependency_None.
Qed.

End FurtherAnnotations.

(** * Further properties of ToRequest *)

Section ToRequest.
Context `{Filepath} `{Generate}.

Lemma run_bind {A B} compiler (m : Run A) (k : A → Run B) :
  run compiler (Run_bind m k) = run compiler (k (run compiler m)).
Proof. induction m as [a|dirs names continue IH]; simpl; [done | apply IH]. Qed.

Lemma invocation_log_bind {A B} compiler (m : Run A) (k : A → Run B) :
  invocation_log compiler (Run_bind m k) =
    invocation_log compiler m ++ invocation_log compiler (k (run compiler m)).
Proof.
  induction m as [a|dirs names continue IH]; simpl; [done|]. f_equal. apply IH.
Qed.

Lemma invocation_log_compile compiler dirPaths filePaths :
  invocation_log compiler (compile dirPaths filePaths) =
    [(fromSlashPaths dirPaths, fromSlashPaths filePaths)].
Proof. unfold compile. simpl. by destruct (err (compiler _ _)). Qed.

(** X11: ToRequest returns an error, without reaching the compiler, when
    Files is nil, when the options are refused, or when the ProtoFileSpec is
    not valid; Files is looked at first, the options second, the
    ProtoFileSpec third. *)
Theorem ToRequest_rejects_before_compiling (r : RequestSpec) :
  Files r = None ∨
  (∃ e, option_NewOptions (Options r) = inr e) ∨
  (∃ p, Files r = Some p ∧ is_Some (validateProtoFileSpec p)) →
  ∃ e,
    ToRequest (Some r) = Return (None, Some e) ∧
    (Files r = None → e = errors_New "RequestSpec.Files not set") ∧
    (∀ p e', Files r = Some p → option_NewOptions (Options r) = inr e' → e = e') ∧
    (∀ p options e', Files r = Some p → option_NewOptions (Options r) = inl options →
       validateProtoFileSpec p = Some e' → e = e').
Proof.
  intros Hcases. unfold ToRequest.
  destruct (Files r) as [p|] eqn:Hfiles.
  - destruct (option_NewOptions (Options r)) as [options|e] eqn:Hoptions.
    + destruct Hcases as [[=]|[[e [=]]|(p' & [= <-] & [e Hvalid])]].
      simpl. rewrite Hvalid. simpl. exists e. split; [done|].
      split; [done|]. split; [intros ? ? _ [=]|].
      intros p0 options0 e' [= <-] _ He'. rewrite Hvalid in He'. by injection He'.
    + exists e. split; [done|].
      split; [done|]. split; [by intros ? ? _ [= <-] | intros ? ? ? _ [=]].
  - eexists. split; [done|]. split; [done|]. split; [intros ? ? [=] | intros ? ? ? [=]].
Qed.

(** X12: a request with Files set, options that are accepted and a valid
    ProtoFileSpec reaches the compiler exactly once, with the normalized
    DirPaths and FilePaths; ToRequest then returns the error of the compiler
    or of the conversion to descriptors if there is one, and otherwise what
    generate.NewRequest makes of the descriptors and the options. *)
Theorem ToRequest_compiles_once compiler (r : RequestSpec) p options :
  Files r = Some p → option_NewOptions (Options r) = inl options →
  DirPaths p ≠ [] → FilePaths p ≠ [] →
  invocation_log compiler (ToRequest (Some r)) =
    [(fromSlashPaths (DirPaths p), fromSlashPaths (FilePaths p))] ∧
  run compiler (ToRequest (Some r)) =
    match err (compiled compiler (DirPaths p) (FilePaths p)) with
    | Some e => (None, Some e)
    | None =>
        match FileDescriptorsForProtoFileDescriptors
                (descriptors_of compiler (DirPaths p) (FilePaths p)) with
        | (_, Some e) => (None, Some e)
        | (fileDescriptors, None) => generate_NewRequest fileDescriptors options
        end
    end.
Proof.
  intros Hfiles Hoptions Hdirs Hpaths. unfold ToRequest. rewrite Hfiles, Hoptions.
  destruct (ToFileDescriptors_valid compiler p Hdirs Hpaths) as [Hcompile _].
  rewrite Hcompile. split.
  - rewrite invocation_log_bind, invocation_log_compile.
    by destruct (run compiler (compile (DirPaths p) (FilePaths p))) as [fds [e|]].
  - rewrite run_bind, run_compile.
    destruct (err (compiled compiler (DirPaths p) (FilePaths p))); [done|].
    by destruct (FileDescriptorsForProtoFileDescriptors _) as [fds [e|]].
Qed.

End ToRequest.

(** * The further properties at work on the examples *)

Lemma ValidateSpec_error_has_cause_witness :
  @ValidateSpec example_info_libraries two_license_spec =
    Some (newValidateSpecError "only one of LicenseText and LicenseURL can be set") ∧
  LicenseText two_license_spec ≠ "" ∧ LicenseURL two_license_spec ≠ "".
Proof.
  assert (Herror : @ValidateSpec example_info_libraries two_license_spec =
    Some (newValidateSpecError "only one of LicenseText and LicenseURL can be set")).
  { vm_compute; reflexivity. }
  split; [exact Herror|].
  destruct (@ValidateSpec_error_has_cause example_info_libraries two_license_spec _ Herror)
    as [(u & perr & _ & _ & _ & Hwrap)
       |[(u & url & _ & _ & _ & _ & Hurl)
        |[(_ & _ & Hid)|[(Htext & Hurl & _)|(_ & _ & Hdoc)]]]].
  - discriminate Hwrap.
  - discriminate Hurl.
  - discriminate Hid.
  - split; [exact Htext | exact Hurl].
  - discriminate Hdoc.
Defined.

Lemma fileDescriptorSet_requested_again_witness :
  Path diamond_w ∈ Name <$> fileDescriptorSetForFileDescriptors [diamond_x] ∧
  fileDescriptorSetForFileDescriptors ([diamond_x] ++ [diamond_w]) =
    fileDescriptorSetForFileDescriptors [diamond_x].
Proof.
  assert (Hin : Path diamond_w ∈ Name <$> fileDescriptorSetForFileDescriptors [diamond_x]).
  { apply (list_elem_of_lookup_2 _ 0). vm_compute; reflexivity. }
  split; [exact Hin|].
  exact (fileDescriptorSet_requested_again [diamond_x] diamond_w Hin).
Defined.

Lemma fileDescriptorSet_requested_last_witness :
  (Path diamond_x ∉ Name <$> fileDescriptorSetForFileDescriptors [diamond_w]) ∧
  ∃ new,
    fileDescriptorSetForFileDescriptors ([diamond_w] ++ [diamond_x]) =
      (fileDescriptorSetForFileDescriptors [diamond_w] ++ new
         ++ [ProtoFromFileDescriptor diamond_x]) ∧
    ∀ proto, proto ∈ new →
      ∃ import, Reachable (Imports diamond_x) import ∧
                proto = ProtoFromFileDescriptor import.
Proof.
  assert (Hnot : Path diamond_x ∉ Name <$> fileDescriptorSetForFileDescriptors [diamond_w]).
  { intros Hin. pose proof (bool_decide_eq_true_2 _ Hin) as Hb.
    vm_compute in Hb. discriminate Hb. }
  split; [exact Hnot|].
  exact (fileDescriptorSet_requested_last [diamond_w] diamond_x Hnot).
Defined.

Lemma fileDescriptorSet_transitive_imports_first_witness :
  path_identifies_file [diamond_x] ∧
  fileDescriptorSetForFileDescriptors [diamond_x] !! 3 =
    Some (ProtoFromFileDescriptor diamond_x) ∧
  Reachable [diamond_x] diamond_x ∧
  Reachable (Imports diamond_x) diamond_w ∧
  ∃ j, j < 3 ∧
    fileDescriptorSetForFileDescriptors [diamond_x] !! j =
      Some (ProtoFromFileDescriptor diamond_w).
Proof.
  assert (Hpath : path_identifies_file [diamond_x]).
  { apply path_identifies_fileb_sound. vm_compute; reflexivity. }
  assert (Hi : fileDescriptorSetForFileDescriptors [diamond_x] !! 3 =
               Some (ProtoFromFileDescriptor diamond_x)).
  { vm_compute; reflexivity. }
  assert (Hx : Reachable [diamond_x] diamond_x).
  { apply Reachable_requested. left. }
  assert (Hw : Reachable (Imports diamond_x) diamond_w).
  { apply (Reachable_import _ diamond_y).
    - apply Reachable_requested. left.
    - left. }
  split; [exact Hpath|]. split; [exact Hi|]. split; [exact Hx|]. split; [exact Hw|].
  exact (fileDescriptorSet_transitive_imports_first [diamond_x] Hpath 3 _
           diamond_x diamond_w Hi eq_refl Hx Hw).
Defined.

Lemma unusedDependencyIndexes_valid_witness :
  (Z.of_nat (length (Dependency (ProtoFromFileDescriptor diamond_x))) ≤ 2 ^ 31)%Z ∧
  unusedDependencyIndexesForFilePathToUnusedDependencyFilePaths
    (ProtoFromFileDescriptor diamond_x) {["z.proto"; "unknown.proto"]} = Some [1%Z] ∧
  (∀ z, z ∈ [1%Z] ↔
        ∃ (i : nat) path, z = Z.of_nat i ∧
          Dependency (ProtoFromFileDescriptor diamond_x) !! i = Some path ∧
          path ∈ ({["z.proto"; "unknown.proto"]} : gset string)) ∧
  (∀ (a b : nat) (x y : Z),
     a < b → [1%Z] !! a = Some x → [1%Z] !! b = Some y → (x < y)%Z) ∧
  (length [1%Z] ≤ length (Dependency (ProtoFromFileDescriptor diamond_x)))%nat.
Proof.
  assert (Hlen :
    (Z.of_nat (length (Dependency (ProtoFromFileDescriptor diamond_x))) ≤ 2 ^ 31)%Z).
  { vm_compute. discriminate. }
  assert (Hindexes : unusedDependencyIndexesForFilePathToUnusedDependencyFilePaths
    (ProtoFromFileDescriptor diamond_x) {["z.proto"; "unknown.proto"]} = Some [1%Z]).
  { vm_compute; reflexivity. }
  split; [exact Hlen|]. split; [exact Hindexes|].
  exact (unusedDependencyIndexes_valid _ _ _ Hlen Hindexes).
Defined.

Lemma isSyntaxUnspecified_iff_warning_witness :
  err (@compiled unix_filepath (table_compiler diamond_sources) ["/root"] ["x.proto"])
    = None ∧
  ∀ d, d ∈ @descriptors_of unix_filepath (table_compiler diamond_sources)
             ["/root"] ["x.proto"] →
    (IsSyntaxUnspecified d = true ↔
     ∃ w, w ∈ warningErrorsWithPos
                (@compiled unix_filepath (table_compiler diamond_sources)
                   ["/root"] ["x.proto"]) ∧
          Is_ErrNoSyntax w = true ∧ Filename w = Name (GetFileDescriptorProto d)).
Proof.
  split; [vm_compute; reflexivity|].
  apply (@isSyntaxUnspecified_iff_warning unix_filepath elementwise_descriptor
           (table_compiler diamond_sources) ["/root"] ["x.proto"]).
  vm_compute; reflexivity.
Defined.

Lemma warning_for_other_file_ignored_witness :
  warningErrorsWithPos (table_compiler diamond_sources ["/root"] ["y.proto"]) =
    [] ++ {| Filename := "x.proto"; Is_ErrNoSyntax := true; As_ErrorUnusedImport := None |}
       :: [ {| Filename := "x.proto"; Is_ErrNoSyntax := false;
               As_ErrorUnusedImport := Some "z.proto" |} ] ∧
  ("x.proto" ∉ Name <$> fileDescriptorSetForFileDescriptors
                          (files (table_compiler diamond_sources ["/root"] ["y.proto"]))) ∧
  @assembled unix_filepath ["y.proto"] (table_compiler diamond_sources ["/root"] ["y.proto"]) =
  @assembled unix_filepath ["y.proto"]
    (with_warnings (table_compiler diamond_sources ["/root"] ["y.proto"])
       ([] ++ [ {| Filename := "x.proto"; Is_ErrNoSyntax := false;
                   As_ErrorUnusedImport := Some "z.proto" |} ])).
Proof.
  assert (Hwarnings :
    warningErrorsWithPos (table_compiler diamond_sources ["/root"] ["y.proto"]) =
      [] ++ {| Filename := "x.proto"; Is_ErrNoSyntax := true;
               As_ErrorUnusedImport := None |}
         :: [ {| Filename := "x.proto"; Is_ErrNoSyntax := false;
                 As_ErrorUnusedImport := Some "z.proto" |} ]).
  { vm_compute; reflexivity. }
  assert (Hother :
    "x.proto" ∉ Name <$> fileDescriptorSetForFileDescriptors
                           (files (table_compiler diamond_sources ["/root"] ["y.proto"]))).
  { intros Hin. pose proof (bool_decide_eq_true_2 _ Hin) as Hb.
    vm_compute in Hb. discriminate Hb. }
  split; [exact Hwarnings|]. split; [exact Hother|].
  exact (@warning_for_other_file_ignored unix_filepath ["y.proto"] _ [] _ _
           Hwarnings Hother).
Defined.

Lemma ToRequest_rejects_before_compiling_witness :
  Files request_without_files = None ∧
  @ToRequest unix_filepath elementwise_descriptor example_generate
    (Some request_without_files) =
    Return (None, Some (errors_New "RequestSpec.Files not set")).
Proof.
  split; [reflexivity|].
  destruct (@ToRequest_rejects_before_compiling unix_filepath elementwise_descriptor
              example_generate request_without_files (or_introl eq_refl))
    as (e & Hreturn & Hfiles & _).
  rewrite Hreturn. rewrite (Hfiles eq_refl). reflexivity.
Defined.

Lemma ToRequest_compiles_once_witness :
  Files diamond_request = Some {| DirPaths := ["/root"]; FilePaths := ["./x.proto"] |} ∧
  @option_NewOptions elementwise_descriptor example_generate (Options diamond_request)
    = inl [("k", "v")] ∧
  invocation_log (table_compiler diamond_sources)
    (@ToRequest unix_filepath elementwise_descriptor example_generate
       (Some diamond_request)) = [(["/root"], ["x.proto"])].
Proof.
  split; [reflexivity|]. split; [vm_compute; reflexivity|].
  destruct (@ToRequest_compiles_once unix_filepath elementwise_descriptor example_generate
              (table_compiler diamond_sources) diamond_request
              {| DirPaths := ["/root"]; FilePaths := ["./x.proto"] |} [("k", "v")]
              eq_refl eq_refl) as [Hlog _].
  - discriminate.
  - discriminate.
  - rewrite Hlog. vm_compute; reflexivity.
Defined.

Section RequestedFiles.
Context `{Filepath} `{Descriptor}.

Lemma requested_file_named (files : list protoreflect_FileDescriptor) file :
  file ∈ files → Path file ∈ Name <$> fileDescriptorSetForFileDescriptors files.
Proof.
  intros Hin. unfold fileDescriptorSetForFileDescriptors. simpl.
  destruct (forEachFile_top files) as ((_ & _ & _ & Hown & _) & Hsame).
  by apply Hsame, Hown.
Qed.

(** X13: in a successful compile in which the compiler names the files it
    links for the request by the normalized requested paths, every one of
    these files has a descriptor in the assembled sequence, and that
    descriptor is not marked as an import, also when another requested file
    imports it. *)
Theorem requested_files_not_imports compiler dirPaths filePaths :
  err (compiled compiler dirPaths filePaths) = None →
  (∀ file, file ∈ files (compiled compiler dirPaths filePaths) →
           Path file ∈ requested_names filePaths) →
  run compiler (compile dirPaths filePaths) =
    FileDescriptorsForProtoFileDescriptors (descriptors_of compiler dirPaths filePaths) ∧
  ∀ file, file ∈ files (compiled compiler dirPaths filePaths) →
    ∃ d, d ∈ descriptors_of compiler dirPaths filePaths ∧
         Name (GetFileDescriptorProto d) = Path file ∧ IsImport d = false.
Proof.
  intros Hok Hnamed. split; [by rewrite run_compile, Hok|].
  intros file Hfile.
  pose proof (requested_file_named _ _ Hfile) as Hin.
  rewrite <- descriptors_of_protos, <- list_fmap_compose in Hin.
  apply list_elem_of_fmap in Hin as (d & Hname & Hd).
  exists d. split; [done|]. split; [done|].
  destruct (elem_of_descriptors_of _ _ _ _ Hd) as (-> & _).
  rewrite negb_false_iff, bool_decide_eq_true.
  rewrite elem_of_toSlashFilePathMap, requested_names_fromSlashPaths.
  simpl in Hname. rewrite <- Hname. by apply Hnamed.
Qed.

End RequestedFiles.

Lemma requested_files_not_imports_witness :
  err (@compiled unix_filepath (table_compiler diamond_sources)
         ["/root"] ["./x.proto"; "w.proto"]) = None ∧
  (∀ file, file ∈ files (@compiled unix_filepath (table_compiler diamond_sources)
                           ["/root"] ["./x.proto"; "w.proto"]) →
           Path file ∈ @requested_names unix_filepath ["./x.proto"; "w.proto"]) ∧
  ∀ file, file ∈ files (@compiled unix_filepath (table_compiler diamond_sources)
                          ["/root"] ["./x.proto"; "w.proto"]) →
    ∃ d, d ∈ @descriptors_of unix_filepath (table_compiler diamond_sources)
               ["/root"] ["./x.proto"; "w.proto"] ∧
         Name (GetFileDescriptorProto d) = Path file ∧ IsImport d = false.
Proof.
  assert (Hok : err (@compiled unix_filepath (table_compiler diamond_sources)
                       ["/root"] ["./x.proto"; "w.proto"]) = None).
  { vm_compute; reflexivity. }
  assert (Hnamed :
    ∀ file, file ∈ files (@compiled unix_filepath (table_compiler diamond_sources)
                            ["/root"] ["./x.proto"; "w.proto"]) →
            Path file ∈ @requested_names unix_filepath ["./x.proto"; "w.proto"]).
  { intros file Hfile.
    change (files (@compiled unix_filepath (table_compiler diamond_sources)
                     ["/root"] ["./x.proto"; "w.proto"]))
      with [diamond_x; diamond_w] in Hfile.
    change (@requested_names unix_filepath ["./x.proto"; "w.proto"])
      with ["x.proto"; "w.proto"].
    apply elem_of_cons in Hfile as [->|Hfile]; [left|].
    apply elem_of_cons in Hfile as [->|Hfile]; [right; left|].
    by apply elem_of_nil in Hfile. }
  split; [exact Hok|]. split; [exact Hnamed|].
  apply (@requested_files_not_imports unix_filepath elementwise_descriptor _ _ _ Hok Hnamed).
Defined.

(** * The order of the returned descriptors *)

Section ReturnedOrder.
Context `{Filepath}.



End ReturnedOrder.


(** The claim as C1 states it fails: the diamond compiles, a path stands for
    one file, and with a conversion that hands the descriptors back in the
    opposite order the first descriptor returned is that of x.proto, whose
    dependency y.proto has no descriptor before it. *)
Lemma returned_dependency_first_counterexample :
  err (@compiled unix_filepath (table_compiler diamond_sources) ["/root"] ["x.proto"])
    = None ∧
  path_identifies_file
    (files (@compiled unix_filepath (table_compiler diamond_sources)
              ["/root"] ["x.proto"])) ∧
  (Name ∘ GetFileDescriptorProto <$>
     default [] (run (table_compiler diamond_sources)
                   (@compile unix_filepath (ranging_descriptor (@rev _))
                      ["/root"] ["x.proto"])).1) =
    ["x.proto"; "z.proto"; "y.proto"; "w.proto"] ∧
  ¬ @returned_dependency_first unix_filepath (@rev _)
      (table_compiler diamond_sources) ["/root"] ["x.proto"].
Proof.
  split; [vm_compute; reflexivity|].
  split; [apply path_identifies_fileb_sound; vm_compute; reflexivity|].
  split; [vm_compute; reflexivity|].
  intros Hclaim.
  destruct (Hclaim _ eq_refl 0
              {| Name := "x.proto"; Dependency := ["y.proto"; "z.proto"] |} "y.proto")
    as (j & _ & Hj & _).
  - vm_compute; reflexivity.
  - left.
  - lia.
Qed.

